(** * Verification of the WAR archive loader (resource/archive.go)

    A shallow embedding of [OpenArchiveFrom], [isPlaceHolder], [readByte],
    [readShort] and [uncompressData], together with the parts of Go's [io] and
    [encoding/binary] packages they call, and the properties of the loader
    and of the LZ decoder stated over that embedding.

    Conventions.
    - A Go [error] value is [option error]; [None] is [nil].
    - [uint32] and [uint16] values are integers in [Z], wrap-around written
      out with [wrap32]; Go [int] is taken to be 64 bits wide and is never
      close to its bounds here, so it is plain [Z].
    - Bytes are [Byte.byte]; byte slices are [list byte].
    - The process-wide [LoadUnsupported] flag and the manifest [fileMap]
      (declared in another file of the package) are parameters of the loader.
    - The diagnostic [Logger] writes to a sink and never influences control
      flow or results; it is left out, but for the index expression
      [fileMap[i]] that the message on a placeholder evaluates, which can
      panic. *)

From Stdlib Require Import ZArith NArith Lia.
From Stdlib.Strings Require Import Byte.
From stdpp Require Import gmap strings list fin_maps pretty.

Abbreviation byte := Byte.byte.

#[global] Instance byte_inhabited : Inhabited byte := populate x00.
#[global] Instance byte_eq_dec : EqDecision byte.
Proof. intros a b. destruct (Byte.byte_eq_dec a b); [left|right]; assumption. Defined.

(** ** Errors *)

Inductive error : Type :=
| EOF                        (* io.EOF *)
| ErrUnexpectedEOF           (* io.ErrUnexpectedEOF *)
| ErrNoProgress              (* cut of a read loop that makes no progress *)
| errorString (msg : string) (* errors.New(msg) *).

#[global] Instance error_eq_dec : EqDecision error.
Proof. solve_decision. Defined.

Definition ErrUnsupportedVersion : error := errorString "unsupported version".

(** ** Byte sources: io.Reader and io.ReadSeeker

    [Read n r] is one call [r.Read(p)] with [len(p) = n]: the bytes stored in
    [p[0:k]], the error, and the reader afterwards.  [pending r] bounds the
    number of further error-free [Read] calls the source can serve; it is
    only used to cut [io.ReadAtLeast]'s loop (see [Productive]). *)

Class Reader (R : Type) := {
  Read : nat → R → list byte * option error * R;
  pending : R → nat
}.

Class ReadSeeker (R : Type) := {
  #[global] ReadSeeker_Reader :: Reader R;
  Seek : Z → R → option error * R
}.

(** A source is productive when every error-free read of a non-empty slice
    uses up some of what is pending. *)
Definition Productive (R : Type) `{Reader R} : Prop :=
  ∀ n r bs r', (0 < n)%nat → Read n r = (bs, None, r') → (pending r' < pending r)%nat.

(** *** A file (os.File over a regular file): contents and a position. *)

Record File := { contents : list byte; pos : nat }.

Definition File_Read (n : nat) (f : File) : list byte * option error * File :=
  if (n =? 0)%nat then ([], None, f)
  else if (length (contents f) <=? pos f)%nat then ([], Some EOF, f)
  else
    let bs := take n (drop (pos f) (contents f)) in
    (bs, None, {| contents := contents f; pos := pos f + length bs |}).

Definition File_Seek (off : Z) (f : File) : option error * File :=
  if (off <? 0)%Z then (Some (errorString "invalid argument"), f)
  else (None, {| contents := contents f; pos := Z.to_nat off |}).

#[global] Instance File_Reader : Reader File :=
  {| Read := File_Read; pending f := length (contents f) - pos f |}.
#[global] Instance File_ReadSeeker : ReadSeeker File :=
  {| Seek := File_Seek |}.

Definition openFile (bs : list byte) : File := {| contents := bs; pos := 0 |}.

(** *** A scripted source: the outcomes of the coming [Read] calls.
    [Chunk bs] is data that arrives together (a read of a shorter slice takes
    a part of it and leaves the rest); [Chunk []] is a read that returns
    [0, nil]; [Fail e] is a read that returns [0, e]; the exhausted script
    returns [0, io.EOF]. *)

Inductive event := Chunk (bs : list byte) | Fail (e : error).
Definition Script := list event.

Definition Script_Read (n : nat) (s : Script) : list byte * option error * Script :=
  match s with
  | [] => ([], Some EOF, [])
  | Fail e :: s' => ([], Some e, s')
  | Chunk bs :: s' =>
      if (n =? 0)%nat then ([], None, s)
      else if (length bs <=? n)%nat then (bs, None, s')
      else (take n bs, None, Chunk (drop n bs) :: s')
  end.

Fixpoint Script_pending (s : Script) : nat :=
  match s with
  | [] => 0
  | Fail _ :: s' => S (Script_pending s')
  | Chunk bs :: s' => S (length bs + Script_pending s')
  end.

#[global] Instance Script_Reader : Reader Script :=
  {| Read := Script_Read; pending := Script_pending |}.

(** ** io.ReadFull and encoding/binary *)

Section IO.
Context {R : Type} `{Reader R}.

(** io.ReadAtLeast's loop, [for n < min && err == nil], with [buf] the
    bytes read so far. *)
Fixpoint ReadAtLeast_loop (fuel min : nat) (buf : list byte) (r : R)
  : list byte * option error * R :=
  if (length buf <? min)%nat then
    match fuel with
    | O => (buf, Some ErrNoProgress, r)
    | S fuel' =>
        let '(bs, err, r') := Read (min - length buf) r in
        match err with
        | None => ReadAtLeast_loop fuel' min (buf ++ bs) r'
        | Some e => (buf ++ bs, Some e, r')
        end
    end
  else (buf, None, r).

(** io.ReadFull(r, buf) with [len(buf) = n]. *)
Definition ReadFull (n : nat) (r : R) : list byte * option error * R :=
  let '(buf, err, r') := ReadAtLeast_loop (S (pending r)) n [] r in
  if (n <=? length buf)%nat then (buf, None, r')
  else if (0 <? length buf)%nat && bool_decide (err = Some EOF)
       then (buf, Some ErrUnexpectedEOF, r')
       else (buf, err, r').

(** binary.LittleEndian.Uint16 / Uint32. *)
Definition littleEndian (bs : list byte) : Z :=
  foldr (λ b acc, Z.of_N (Byte.to_N b) + 256 * acc)%Z 0%Z bs.

(** binary.Read(r, binary.LittleEndian, &v) for [v] of [n] bytes: the error,
    or the value stored in [v]. *)
Definition binary_Read (n : nat) (r : R) : (error + Z) * R :=
  let '(bs, err, r') := ReadFull n r in
  match err with
  | Some e => (inl e, r')
  | None => (inr (littleEndian bs), r')
  end.

(** ** readByte and readShort *)

Definition readByte (r : R) : byte * option error * R :=
  let '(bs, err, r') := Read 1 r in
  match bs, err with
  | [b], None => (b, None, r')
  | _, _ => (x00, err, r')
  end.

Definition readShort (r : R) : Z * option error * R :=
  match binary_Read 2 r with
  | (inl e, r') => (0%Z, Some e, r')
  | (inr short, r') => (short, None, r')
  end.

(** ** uncompressData *)

Local Open Scope Z_scope.

Definition bufferSize : Z := 4096.

(** The local variables of [uncompressData]: the dictionary [buffer], the
    bytes written to [writer] so far, and the two counters. *)
Record decoder := {
  buffer : list byte;
  written : list byte;
  numWrite : Z;
  numRead : Z
}.

Definition advance (k : Z) (st : decoder) : decoder :=
  {| buffer := buffer st; written := written st;
     numWrite := numWrite st; numRead := numRead st + k |}.

(** [buffer[numWrite%bufferSize] = bufByte; writer.WriteByte(bufByte);
    numWrite++] *)
Definition emit (bufByte : byte) (st : decoder) : decoder :=
  {| buffer := <[Z.to_nat (numWrite st mod bufferSize) := bufByte]> (buffer st);
     written := written st ++ [bufByte];
     numWrite := numWrite st + 1;
     numRead := numRead st |}.

(** [for m := uint16(0); m <= numBytes+2; m++], with [count] iterations
    left.  [offset < 4096] and [m <= 17], so the [uint16] sum does not
    wrap, and the index is below the length of the dictionary. *)
Fixpoint copyLoop (count : nat) (offset m : Z) (st : decoder) : decoder :=
  match count with
  | O => st
  | S count' =>
      let bufByte := buffer st !!! Z.to_nat ((offset + m) mod bufferSize) in
      copyLoop count' offset (m + 1) (emit bufByte st)
  end.

(** [for i := 0; i < 8 && numWrite != fileSize; i++], with [n = 8 - i].
    On a read error the state at that point is returned with the error. *)
Fixpoint bitLoop (n : nat) (fileSize cmask : Z) (st : decoder) (r : R)
  : decoder * option error * R :=
  match n with
  | O => (st, None, r)
  | S n' =>
      if numWrite st =? fileSize then (st, None, r)
      else if cmask mod 2 =? 1 then
        let '(bufByte, err, r1) := readByte r in
        let st1 := advance 1 st in
        match err with
        | Some e => (st1, Some e, r1)
        | None => bitLoop n' fileSize (cmask / 2) (emit bufByte st1) r1
        end
      else
        let '(offset, err, r1) := readShort r in
        let st1 := advance 2 st in
        match err with
        | Some e => (st1, Some e, r1)
        | None =>
            let numBytes := offset / bufferSize in
            let offset := offset mod bufferSize in
            bitLoop n' fileSize (cmask / 2)
              (copyLoop (Z.to_nat (numBytes + 3)) offset 0 st1) r1
        end
  end.

(** [for numRead < dataSize].  Every iteration adds at least one to
    [numRead], so [dataSize - numRead] iterations are enough
    ([decodeLoop_fuel]); an error returns the dictionary, not the output. *)
Fixpoint decodeLoop (fuel : nat) (fileSize dataSize : Z) (st : decoder) (r : R)
  : list byte * option error * R :=
  if numRead st <? dataSize then
    match fuel with
    | O => (written st, None, r)
    | S fuel' =>
        let '(cmask, err, r1) := readByte r in
        let st1 := advance 1 st in
        match err with
        | Some e => (buffer st1, Some e, r1)
        | None =>
            let '(st2, err, r2) :=
              bitLoop 8 fileSize (Z.of_N (Byte.to_N cmask)) st1 r1 in
            match err with
            | Some e => (buffer st2, Some e, r2)
            | None => decodeLoop fuel' fileSize dataSize st2 r2
            end
        end
    end
  else (written st, None, r).

Definition freshDecoder : decoder :=
  {| buffer := replicate (Z.to_nat bufferSize) x00; written := [];
     numWrite := 0; numRead := 0 |}.

Definition uncompressData (r : R) (fileSize dataSize : Z)
  : list byte * option error * R :=
  decodeLoop (Z.to_nat dataSize) fileSize dataSize freshDecoder r.

End IO.

(** ** The archive and its loader *)

Record Archive := { Type_ : string; Files : gmap string (list byte) }.

Definition dosRetail : list byte := [x18; x00; x00; x00].
Definition dosShareware : list byte := [x19; x00; x00; x00].
Definition macRetail : list byte := [x00; x00; x00; x1a].
Definition macShareware : list byte := [x00; x00; x00; x19].

(** What a call of [OpenArchiveFrom] ends in: the returned pair, or a run-time
    panic (index out of range). *)
Inductive outcome :=
| Return (arch : option Archive) (err : option error)
| Panic.

(** What one iteration of a loop ends in: the next iteration ([continue] or
    the end of the body) with the stream and the map as they are then, or the
    end of the call. *)
Inductive flow (R : Type) :=
| Next (fp : R) (files : gmap string (list byte))
| Stop (o : outcome).
Arguments Next {R} fp files.
Arguments Stop {R} o.

Definition wrap32 (z : Z) : Z := (z mod 2 ^ 32)%Z.

(** The [switch archiveID]: the value of [arch.Type] after it, and the error
    it returns with, if it returns. *)
Definition detectVariant (archiveID : list byte) : string * option error :=
  if decide (archiveID = dosRetail) then ("DOS Retail", None)
  else if decide (archiveID = dosShareware) then ("DOS Shareware", None)
  else if decide (archiveID = macRetail) then ("Mac Retail", Some ErrUnsupportedVersion)
  else if decide (archiveID = macShareware) then ("Mac Shareware", Some ErrUnsupportedVersion)
  else ("", Some (errorString "unknown version")).

(** [tab[i]] for a Go [int] index; [None] is the index-out-of-range panic. *)
Definition index (tab : list Z) (i : Z) : option Z :=
  if (i <? 0)%Z then None else tab !! Z.to_nat i.

Definition isPlaceHolder (tab : list Z) (offset : Z) (i : Z) : option bool :=
  if (offset =? 0x0)%Z || (offset =? 0xFFFFFFFF)%Z then Some true
  else if (i =? Z.of_nat (length tab) - 1)%Z then Some false
  else next ← index tab (i + 1);
       if (offset =? wrap32 (next - 1))%Z then Some true else Some false.

(** [size>>24 == 0x20] and [size &= 0x00FFFFFF] on the header word. *)
Definition headerCompressed (size : Z) : bool := (Z.shiftr size 24 =? 0x20)%Z.
Definition headerSize (size : Z) : Z := Z.land size 0x00FFFFFF.

(** The value of [dataLength] after [dataLength -= 4]. *)
Definition dataLength (fileTable : list Z) (sz : Z) (i : Z) : option Z :=
  if (i =? Z.of_nat (length fileTable) - 1)%Z then
    cur ← index fileTable i;
    Some (wrap32 (wrap32 (wrap32 sz - cur) - 4))
  else
    next ← index fileTable (i + 1);
    cur ← index fileTable i;
    Some (wrap32 (wrap32 (next - cur) - 4)).

(** [fmt.Sprintf("DATA.WAR.%v", i)] *)
Definition unsupportedName (i : nat) : string := "DATA.WAR." +:+ pretty i.

Section Loader.
Context {R : Type} `{ReadSeeker R}.
Variable fileMap : list string.
Variable LoadUnsupported : bool.

(** The loop [for i := range fileTable] that fills the table, with [n]
    entries to go. *)
Fixpoint readTable (n : nat) (fp : R) : (error + list Z) * R :=
  match n with
  | O => (inr [], fp)
  | S n' =>
      match binary_Read 4 fp with
      | (inl e, fp') => (inl e, fp')
      | (inr offset, fp') =>
          match readTable n' fp' with
          | (inl e, fp'') => (inl e, fp'')
          | (inr offsets, fp'') => (inr (offset :: offsets), fp'')
          end
      end
  end.

(** The end of the loop body: decode the payload and store it. *)
Definition storeEntry (isCompressed : bool) (size dataLength : Z)
    (fileName : string) (fp : R) (files : gmap string (list byte)) : flow R :=
  if isCompressed then
    match uncompressData fp size dataLength with
    | (_, Some e, _) => Stop (Return None (Some e))
    | (data, None, fp') => Next fp' (<[fileName := data]> files)
    end
  else
    let '(data, err, fp') := Read (Z.to_nat size) fp in
    if negb (Z.of_nat (length data) =? size)%Z || bool_decide (err ≠ None)
    then Stop (Return None err)
    else Next fp' (<[fileName := data]> files).

(** The body of [for i, offset := range fileTable].  On a placeholder the
    test [fileMap[i] != ""] indexes the manifest before the [continue]; what
    it guards is a message to the logger only. *)
Definition loadSlot (fileTable : list Z) (sz : Z) (i : nat) (offset : Z)
    (fp : R) (files : gmap string (list byte)) : flow R :=
  match isPlaceHolder fileTable offset (Z.of_nat i) with
  | None => Stop Panic
  | Some true =>
      match fileMap !! i with
      | None => Stop Panic
      | Some _ => Next fp files
      end
  | Some false =>
      match Seek offset fp with
      | (Some e, _) => Stop (Return None (Some e))
      | (None, fp1) =>
          match binary_Read 4 fp1 with
          | (inl e, _) => Stop (Return None (Some e))
          | (inr size, fp2) =>
              let isCompressed := headerCompressed size in
              let size := headerSize size in
              match dataLength fileTable sz (Z.of_nat i), fileMap !! i with
              | Some dataLength, Some fileName =>
                  if bool_decide (fileName = "") then
                    if negb LoadUnsupported then Next fp2 files
                    else storeEntry isCompressed size dataLength
                           (unsupportedName i) fp2 files
                  else storeEntry isCompressed size dataLength fileName fp2 files
              | _, _ => Stop Panic
              end
          end
      end
  end.

(** The loop over the slots [i, i+1, ...] whose offsets are [offsets]. *)
Fixpoint loadSlots (fileTable : list Z) (sz : Z) (i : nat) (offsets : list Z)
    (fp : R) (files : gmap string (list byte)) : flow R :=
  match offsets with
  | [] => Next fp files
  | offset :: offsets' =>
      match loadSlot fileTable sz i offset fp files with
      | Next fp' files' => loadSlots fileTable sz (S i) offsets' fp' files'
      | Stop o => Stop o
      end
  end.

Definition OpenArchiveFrom (fp : R) (sz : Z) : outcome :=
  let '(bs, err, fp1) := Read 4 fp in
  match err with
  | Some e => Return None (Some e)
  | None =>
      let archiveID := take 4 (bs ++ replicate 4 x00) in
      match detectVariant archiveID with
      | (_, Some e) => Return None (Some e)
      | (type, None) =>
          match binary_Read 4 fp1 with
          | (inl e, _) => Return None (Some e)
          | (inr numFiles, fp2) =>
              if negb (numFiles =? Z.of_nat (length fileMap))%Z
              then Return None (Some (errorString "table mapping mismatch"))
              else
                match readTable (Z.to_nat numFiles) fp2 with
                | (inl e, _) => Return None (Some e)
                | (inr fileTable, fp3) =>
                    match loadSlots fileTable sz 0 fileTable fp3 ∅ with
                    | Stop o => o
                    | Next _ files =>
                        Return (Some {| Type_ := type; Files := files |}) None
                    end
                end
          end
      end
  end.

End Loader.

(** [a.Open(file)]: the stored bytes ([bytes.NewReader(f)]) or
    [os.ErrNotExist]. *)
Definition Archive_Open (a : Archive) (file : string) : (error + list byte) :=
  match Files a !! file with
  | Some f => inr f
  | None => inl (errorString "file does not exist")
  end.

(** ** Predicates used in the statements *)

(** The write counter counts the bytes written. *)
Definition counted (st : decoder) : Prop :=
  Z.of_nat (length (written st)) = numWrite st.



(** Where a key of the archive's map comes from: a slot of the table that is
    not a placeholder, and either its non-empty manifest name or, with
    [LoadUnsupported] on, the name made from the index of a slot the manifest
    has no name for. *)
Definition provenance (fileMap : list string) (LoadUnsupported : bool)
    (fileTable : list Z) (k : string) : Prop :=
  ∃ (i : nat) (offset : Z),
    fileTable !! i = Some offset ∧
    isPlaceHolder fileTable offset (Z.of_nat i) = Some false ∧
    ((fileMap !! i = Some k ∧ k ≠ "") ∨
     (LoadUnsupported = true ∧ fileMap !! i = Some "" ∧ k = unsupportedName i)).

(** ** Sample inputs *)

(** The four bytes of a [uint32], least significant first. *)
Definition le32 (z : Z) : list byte :=
  map (λ k, default x00 (Byte.of_N (Z.to_N ((z / 256 ^ k) mod 256))))
      [0; 1; 2; 3]%Z.

(** Two control bytes [0xFF], each followed by eight literals. *)
Definition sixteenLiterals : list byte :=
  [xff; x41; x42; x43; x44; x45; x46; x47; x48;
   xff; x49; x4a; x4b; x4c; x4d; x4e; x4f; x50].

(** One control byte [0x00] followed by eight reference codes [0x0000]: eight
    copies of three bytes each from the start of the dictionary. *)
Definition eightReferences : list byte := x00 :: replicate 16 x00.

(** A file table as it lies in the archive. *)
Definition encodeTable (offsets : list Z) : list byte := offsets ≫= le32.

(** A DOS retail archive for a manifest of [n] names: slot 0 lies right after
    the table and announces two raw bytes, of which the file holds only one;
    the other slots are placeholders. *)
Definition truncatedArchiveFor (n : nat) : list byte :=
  dosRetail ++ le32 (Z.of_nat n)
    ++ encodeTable (Z.of_nat (8 + 4 * n) :: replicate (n - 1) 0xFFFFFFFF%Z)
    ++ le32 2 ++ [x41].

(** The same for a manifest of one name: 17 bytes, the slot at offset 12. *)
Definition truncatedArchive : list byte := truncatedArchiveFor 1.

(** A DOS retail archive with two slots of one raw byte each, at offsets 16
    and 21. *)
Definition twoSlotArchive : list byte :=
  dosRetail ++ le32 2 ++ le32 16 ++ le32 21
    ++ le32 1 ++ [x41] ++ le32 1 ++ [x42].

(** A DOS retail archive with one slot of two raw bytes at offset 12. *)
Definition oneSlotArchive : list byte :=
  dosRetail ++ le32 1 ++ le32 12 ++ le32 2 ++ [x41; x42].

(** A DOS retail archive with two slots: slot 0 is a placeholder, its offset
    15 being one less than the next, and slot 1 holds two raw bytes at offset
    16. *)
Definition placeholderArchive : list byte :=
  dosRetail ++ le32 2 ++ le32 15 ++ le32 16 ++ le32 2 ++ [x41; x42].

(** ** Definitions used in the further properties *)

(** Slot [i] of the manifest carries the key [k]. *)
Definition carries (fileMap : list string) (LoadUnsupported : bool)
    (i : nat) (k : string) : Prop :=
  (fileMap !! i = Some k ∧ k ≠ ""%string) ∨
  (LoadUnsupported = true ∧ fileMap !! i = Some ""%string ∧ k = unsupportedName i).

(** The dictionary is the window of the last 4096 bytes of the output: byte
    [k] of the output, as long as it is among the last 4096, is found at
    index [k mod 4096]. *)
Definition window (st : decoder) : Prop :=
  length (buffer st) = 4096 ∧ counted st ∧
  ∀ k : nat,
    (Z.of_nat k < numWrite st)%Z → (numWrite st - Z.of_nat k ≤ 4096)%Z →
    buffer st !! (k `mod` 4096) = written st !! k.

(** The contract of [io.Reader]: [Read] returns at most [len(p)] bytes. *)
Definition Bounded (R : Type) `{Reader R} : Prop :=
  ∀ n r, length (Read n r).1.1 ≤ n.

(** A payload made of literals only: each chunk of at most eight bytes
    follows a control byte [0xFF]. *)
Fixpoint storeChunks (chunks : list (list byte)) : list byte :=
  match chunks with
  | [] => []
  | chunk :: chunks' => xff :: chunk ++ storeChunks chunks'
  end.

(** Every chunk but the last has eight bytes, the last at most eight. *)
Fixpoint wellChunked (chunks : list (list byte)) : Prop :=
  match chunks with
  | [] => True
  | chunk :: chunks' =>
      length chunk ≤ 8 ∧ (chunks' ≠ [] → length chunk = 8) ∧ wellChunked chunks'
  end.

(** The state after the literals [lits]. *)
Definition emitAll (lits : list byte) (st : decoder) : decoder :=
  foldl (λ s b, emit b (advance 1 s)) st lits.

(** The offsets of raw entries laid out one after the other from position
    [p]: each takes four bytes for its header word and then its bytes. *)
Fixpoint layout (p : nat) (entries : list (string * list byte)) : list Z :=
  match entries with
  | [] => []
  | e :: entries' => Z.of_nat p :: layout (p + 4 + length e.2) entries'
  end.

(** The data section of these entries: the header word holds the length. *)
Fixpoint rawEntries (entries : list (string * list byte)) : list byte :=
  match entries with
  | [] => []
  | e :: entries' => le32 (Z.of_nat (length e.2)) ++ e.2 ++ rawEntries entries'
  end.

(** A DOS retail archive that holds the entries, none of them compressed. *)
Definition rawArchive (entries : list (string * list byte)) : list byte :=
  dosRetail ++ le32 (Z.of_nat (length entries))
    ++ encodeTable (layout (8 + 4 * length entries) entries)
    ++ rawEntries entries.

(** The map after the assignments [Files[name] = data], in order. *)
Definition storeAll (entries : list (string * list byte))
    (files : gmap string (list byte)) : gmap string (list byte) :=
  foldl (λ m e, <[e.1 := e.2]> m) files entries.

(** * Properties *)

(** ** The byte sources *)

Lemma File_Productive : Productive File.
Proof.
  intros n [c p] bs r' Hn. simpl. unfold File_Read; simpl.
  destruct (Nat.eqb_spec n 0); [lia|].
  destruct (Nat.leb_spec (length c) p); [discriminate|].
  intros [= <- <-]. simpl. rewrite length_take, length_drop. lia.
Qed.

Lemma Script_Productive : Productive Script.
Proof.
  intros n s bs r' Hn. simpl. destruct s as [|[c|e] s]; simpl; try discriminate.
  destruct (Nat.eqb_spec n 0); [lia|].
  destruct (Nat.leb_spec (length c) n); intros [= <- <-]; simpl.
  - lia.
  - rewrite length_drop. lia.
Qed.

Section IOFacts.
Context {R : Type} `{Reader R}.

(** For a productive source the cut of [ReadAtLeast_loop] is never reached:
    any fuel above [pending r] gives the same result. *)
Lemma ReadAtLeast_loop_fuel (HP : Productive R) fuel1 fuel2 min buf r :
  (pending r < fuel1)%nat → (pending r < fuel2)%nat →
  ReadAtLeast_loop fuel1 min buf r = ReadAtLeast_loop fuel2 min buf r.
Proof.
  revert fuel2 buf r. induction fuel1 as [|fuel1 IH]; intros fuel2 buf r H1 H2; [lia|].
  destruct fuel2 as [|fuel2]; [lia|]. simpl.
  destruct (Nat.ltb_spec (length buf) min) as [Hlt|]; [|reflexivity].
  destruct (Read (min - length buf) r) as [[bs err] r'] eqn:E.
  destruct err; [reflexivity|].
  apply HP in E; [|lia]. apply IH; lia.
Qed.

(** *** The decoder's loops *)

Local Open Scope Z_scope.

Lemma counted_fresh : counted freshDecoder.
Proof. reflexivity. Qed.

Lemma counted_advance k st : counted st → counted (advance k st).
Proof. auto. Qed.

Lemma counted_emit b st : counted st → counted (emit b st).
Proof. unfold counted, emit; simpl. rewrite length_app; simpl. lia. Qed.

Lemma copyLoop_spec count offset m st :
  written st `prefix_of` written (copyLoop count offset m st) ∧
  numWrite (copyLoop count offset m st) = numWrite st + Z.of_nat count ∧
  numRead (copyLoop count offset m st) = numRead st ∧
  (counted st → counted (copyLoop count offset m st)).
Proof.
  revert m st. induction count as [|count IH]; intros m st; simpl.
  - repeat split; auto; lia.
  - destruct (IH (m + 1) (emit (buffer st !!! Z.to_nat ((offset + m) mod bufferSize)) st))
      as (Hp & Hw & Hr & Hc).
    repeat split.
    + etrans; [|exact Hp]. simpl. by apply prefix_app_r.
    + rewrite Hw. simpl. lia.
    + rewrite Hr. reflexivity.
    + intros Hst. apply Hc. by apply counted_emit.
Qed.

(** Once the write counter equals the target the control bits left in the
    mask are skipped: nothing is read and nothing is written. *)
Lemma bitLoop_at_target n fileSize cmask st r :
  numWrite st = fileSize → bitLoop n fileSize cmask st r = (st, None, r).
Proof.
  intros Heq. destruct n; simpl; [reflexivity|].
  by rewrite (proj2 (Z.eqb_eq _ _) Heq).
Qed.

Lemma bitLoop_grows n fileSize cmask st r st' err r' :
  bitLoop n fileSize cmask st r = (st', err, r') →
  written st `prefix_of` written st' ∧ numRead st ≤ numRead st' ∧
  (counted st → counted st').
Proof.
  revert cmask st r. induction n as [|n IH]; intros cmask st r; simpl.
  - intros [= <- <- <-]. repeat split; auto; lia.
  - destruct (numWrite st =? fileSize).
    { intros [= <- <- <-]. repeat split; auto; lia. }
    destruct (cmask mod 2 =? 1).
    + destruct (readByte r) as [[b e] r1]. destruct e.
      * intros [= <- <- <-]. simpl. repeat split; auto; lia.
      * intros Hrun. apply IH in Hrun as (Hp & Hr & Hc). simpl in *.
        repeat split.
        -- etrans; [|exact Hp]. by apply prefix_app_r.
        -- lia.
        -- intros Hst. apply Hc. by apply counted_emit.
    + destruct (readShort r) as [[offset e] r1]. destruct e.
      * intros [= <- <- <-]. simpl. repeat split; auto; lia.
      * intros Hrun. apply IH in Hrun as (Hp & Hr & Hc).
        destruct (copyLoop_spec (Z.to_nat (offset / bufferSize + 3))
                    (offset mod bufferSize) 0 (advance 2 st)) as (Hp' & _ & Hr' & Hc').
        rewrite Hr' in Hr. simpl in *. repeat split.
        -- etrans; [exact Hp'|exact Hp].
        -- lia.
        -- intros Hst. apply Hc, Hc'. exact Hst.
Qed.

(** [dataSize - numRead] iterations of the outer loop are enough. *)
Lemma decodeLoop_fuel fuel1 fuel2 fileSize dataSize st r :
  (Z.to_nat (dataSize - numRead st) ≤ fuel1)%nat →
  (Z.to_nat (dataSize - numRead st) ≤ fuel2)%nat →
  decodeLoop fuel1 fileSize dataSize st r = decodeLoop fuel2 fileSize dataSize st r.
Proof.
  revert fuel2 st r. induction fuel1 as [|fuel1 IH]; intros fuel2 st r H1 H2.
  - cbn [decodeLoop]. destruct (Z.ltb_spec (numRead st) dataSize); [lia|].
    destruct fuel2; cbn [decodeLoop]; destruct (Z.ltb_spec (numRead st) dataSize); try lia; reflexivity.
  - destruct fuel2 as [|fuel2]; cbn [decodeLoop];
      destruct (Z.ltb_spec (numRead st) dataSize); try lia; try reflexivity.
    destruct (readByte r) as [[cmask e] r1]. destruct e; [reflexivity|].
    destruct (bitLoop 8 fileSize (Z.of_N (to_N cmask)) (advance 1 st) r1)
      as [[st2 e2] r2] eqn:Hbits.
    destruct e2; [reflexivity|].
    apply bitLoop_grows in Hbits as (_ & Hr & _). simpl in Hr.
    apply IH; lia.
Qed.



End IOFacts.

(** ** Two byte sources that answer alike *)

Section Simulation.
Context {R1 R2 : Type} `{Reader R1} `{Reader R2}.
Variable sim : R1 → R2 → Prop.
Hypothesis sim_Read : ∀ n r1 r2, sim r1 r2 →
  pending r1 = pending r2 ∧
  (Read n r1).1 = (Read n r2).1 ∧ sim (Read n r1).2 (Read n r2).2.








End Simulation.


(** ** The decoder *)

(** Eight literals after a control byte [0xFF]. *)
Example uncompress_literals :
  (uncompressData
     (openFile [xff; x41; x42; x43; x44; x45; x46; x47; x48]) 8 9).1
  = ([x41; x42; x43; x44; x45; x46; x47; x48], None).
Proof. vm_compute. reflexivity. Qed.

(** Two literals, then a reference to position 0 with run 0: three bytes are
    copied, the third one being the first of the copy itself. *)
Example uncompress_reference :
  (uncompressData (openFile [x03; x41; x42; x00; x00]) 5 5).1
  = ([x41; x42; x41; x42; x41], None).
Proof. vm_compute. reflexivity. Qed.

(** A source that ends within the payload: the error is [io.EOF], and what
    is returned with it is the dictionary, not the output. *)
Example uncompress_truncated :
  (uncompressData (openFile [xff; x41]) 8 9).1
  = (x41 :: replicate 4095 x00, Some EOF).
Proof. vm_compute. reflexivity. Qed.




(** C9.  When [Read] returns no byte and no error, [readByte] returns the
    byte 0 and no error.  The decoder then goes on with that byte: as a
    literal it is written to the dictionary and to the output, and as a
    control byte it announces eight references. *)
Theorem readByte_zero_read {R : Type} `{Reader R} (r r' : R) :
  Read 1 r = ([], None, r') →
  readByte r = (x00, None, r') ∧
  (∀ n fileSize cmask st,
     numWrite st ≠ fileSize → (cmask `mod` 2 = 1)%Z →
     bitLoop (S n) fileSize cmask st r =
     bitLoop n fileSize (cmask / 2) (emit x00 (advance 1 st)) r') ∧
  (∀ fuel fileSize dataSize st,
     (numRead st < dataSize)%Z →
     decodeLoop (S fuel) fileSize dataSize st r =
     let '(st2, err, r2) := bitLoop 8 fileSize 0 (advance 1 st) r' in
     match err with
     | Some e => (buffer st2, Some e, r2)
     | None => decodeLoop fuel fileSize dataSize st2 r2
     end).
Proof.
  intros Hread.
  assert (Hbyte : readByte r = (x00, None, r')) by (unfold readByte; by rewrite Hread).
  split; [exact Hbyte|]. split.
  - intros n fileSize cmask st Hne Hbit. cbn [bitLoop].
    rewrite (proj2 (Z.eqb_neq _ _) Hne), Hbit, Hbyte. reflexivity.
  - intros fuel fileSize dataSize st Hlt. cbn [decodeLoop].
    rewrite (proj2 (Z.ltb_lt _ _) Hlt), Hbyte. reflexivity.
Qed.

Lemma readByte_zero_read_witness :
  readByte [Chunk []; Chunk [x41]] = (x00, None, [Chunk [x41]]) ∧
  (uncompressData [Chunk [x01]; Chunk []] 1 2).1 = ([x00], None).
Proof.
  split.
  - apply (readByte_zero_read [Chunk []; Chunk [x41]] [Chunk [x41]]). reflexivity.
  - vm_compute. reflexivity.
Defined.

(** ** The file table *)

Lemma wrap32_small z : (0 ≤ z < 2 ^ 32)%Z → wrap32 z = z.
Proof. intros Hz. unfold wrap32. by apply Z.mod_small. Qed.

Lemma wrap32_sub a b : wrap32 (wrap32 a - b) = wrap32 (a - b).
Proof. unfold wrap32. apply Zminus_mod_idemp_l. Qed.

Lemma index_of_nat (tab : list Z) (i : nat) : index tab (Z.of_nat i) = tab !! i.
Proof.
  unfold index. destruct (Z.ltb_spec (Z.of_nat i) 0); [lia|].
  by rewrite Nat2Z.id.
Qed.

Lemma index_succ (tab : list Z) (i : nat) :
  index tab (Z.of_nat i + 1) = tab !! (i + 1)%nat.
Proof. rewrite <- index_of_nat. f_equal. lia. Qed.

(** A slot that is not the last one has a successor in the table. *)
Lemma successor_slot (tab : list Z) (i : nat) (o : Z) :
  tab !! i = Some o → Z.of_nat i ≠ (Z.of_nat (length tab) - 1)%Z →
  ∃ next, tab !! (i + 1)%nat = Some next.
Proof.
  intros Hi Hne. apply lookup_lt_Some in Hi.
  apply lookup_lt_is_Some. lia.
Qed.

(** C4.  For a table [T] of [uint32] offsets and a slot [i] with offset
    [o = T[i]]: the slot is a placeholder when [o] is 0 or 0xFFFFFFFF;
    otherwise the last slot is present; otherwise the slot is a placeholder
    exactly when [o = T[i+1] - 1]. *)
Theorem isPlaceHolder_spec (T : list Z) (i : nat) (o : Z) :
  Forall (λ x, 0 ≤ x < 2 ^ 32)%Z T →
  T !! i = Some o →
  (o = 0 ∨ o = 0xFFFFFFFF → isPlaceHolder T o (Z.of_nat i) = Some true)%Z ∧
  (o ≠ 0 → o ≠ 0xFFFFFFFF → i = (length T - 1)%nat →
   isPlaceHolder T o (Z.of_nat i) = Some false)%Z ∧
  (o ≠ 0 → o ≠ 0xFFFFFFFF → i ≠ (length T - 1)%nat →
   ∃ next, T !! (i + 1)%nat = Some next ∧
     isPlaceHolder T o (Z.of_nat i) = Some (bool_decide (o = next - 1)))%Z.
Proof.
  intros Hrange Hi. pose proof (lookup_lt_Some _ _ _ Hi) as Hlt.
  unfold isPlaceHolder. repeat split.
  - intros [-> | ->]; reflexivity.
  - intros H0 H1 ->.
    rewrite (proj2 (Z.eqb_neq _ _) H0), (proj2 (Z.eqb_neq _ _) H1). simpl.
    destruct (Z.eqb_spec (Z.of_nat (length T - 1)) (Z.of_nat (length T) - 1));
      [reflexivity|lia].
  - intros H0 H1 Hnl.
    rewrite (proj2 (Z.eqb_neq _ _) H0), (proj2 (Z.eqb_neq _ _) H1). simpl.
    destruct (Z.eqb_spec (Z.of_nat i) (Z.of_nat (length T) - 1)); [lia|].
    destruct (successor_slot T i o Hi) as [next Hnext]; [done|].
    exists next. split; [exact Hnext|].
    rewrite index_succ, Hnext. simpl.
    assert (Hn : (0 ≤ next < 2 ^ 32)%Z).
    { eapply (proj1 (Forall_lookup _ _)) in Hrange; [exact Hrange|exact Hnext]. }
    assert (Ho : (0 ≤ o < 2 ^ 32)%Z).
    { eapply (proj1 (Forall_lookup _ _)) in Hrange; [exact Hrange|exact Hi]. }
    destruct (Z.eq_dec next 0%Z) as [->|Hpos].
    + change (wrap32 (0 - 1)) with 0xFFFFFFFF%Z.
      rewrite (proj2 (Z.eqb_neq _ _) H1).
      rewrite bool_decide_eq_false_2; [reflexivity|lia].
    + rewrite wrap32_small by lia.
      destruct (Z.eqb_spec o (next - 1)).
      * by rewrite bool_decide_eq_true_2.
      * by rewrite bool_decide_eq_false_2.
Qed.

Lemma isPlaceHolder_spec_witness :
  isPlaceHolder [0; 0xFFFFFFFF; 99; 100; 500]%Z 99 (Z.of_nat 2) = Some true ∧
  isPlaceHolder [0; 0xFFFFFFFF; 99; 100; 500]%Z 500 (Z.of_nat 4) = Some false ∧
  isPlaceHolder [0; 0xFFFFFFFF; 99; 100; 500]%Z 0 (Z.of_nat 0) = Some true.
Proof.
  assert (Hrange : Forall (λ x, 0 ≤ x < 2 ^ 32)%Z [0; 0xFFFFFFFF; 99; 100; 500]%Z).
  { repeat constructor; lia. }
  split; [|split].
  - destruct (isPlaceHolder_spec _ 2 99%Z Hrange eq_refl) as (_ & _ & Hmid).
    destruct Hmid as (next & Hnext & ->); [lia|lia|simpl; lia|].
    injection Hnext as <-. reflexivity.
  - destruct (isPlaceHolder_spec _ 4 500%Z Hrange eq_refl) as (_ & Hlast & _).
    apply Hlast; [lia|lia|reflexivity].
  - destruct (isPlaceHolder_spec _ 0 0%Z Hrange eq_refl) as (Hsent & _ & _).
    apply Hsent. by left.
Defined.

(** C5.  The payload length of slot [i] with offset [o = T[i]] is
    [T[i+1] - o - 4] when the slot is not the last one and [sz - o - 4] when
    it is, both modulo [2^32]. *)
Theorem dataLength_spec (T : list Z) (sz : Z) (i : nat) (o : Z) :
  T !! i = Some o →
  (i = (length T - 1)%nat →
   dataLength T sz (Z.of_nat i) = Some ((sz - o - 4) mod 2 ^ 32))%Z ∧
  (i ≠ (length T - 1)%nat →
   ∃ next, T !! (i + 1)%nat = Some next ∧
     dataLength T sz (Z.of_nat i) = Some ((next - o - 4) mod 2 ^ 32))%Z.
Proof.
  intros Hi. pose proof (lookup_lt_Some _ _ _ Hi) as Hlt.
  unfold dataLength. split.
  - intros Hlast.
    destruct (Z.eqb_spec (Z.of_nat i) (Z.of_nat (length T) - 1)); [|lia].
    rewrite index_of_nat, Hi. simpl. f_equal.
    by rewrite (wrap32_sub sz o), wrap32_sub.
  - intros Hnl.
    destruct (Z.eqb_spec (Z.of_nat i) (Z.of_nat (length T) - 1)); [lia|].
    destruct (successor_slot T i o Hi) as [next Hnext]; [done|].
    exists next. split; [exact Hnext|].
    rewrite index_succ, Hnext, index_of_nat, Hi. simpl. f_equal.
    by rewrite wrap32_sub.
Qed.

Lemma dataLength_spec_witness :
  dataLength [16; 21]%Z 26 (Z.of_nat 1) = Some ((26 - 21 - 4) mod 2 ^ 32)%Z ∧
  ∃ next, [16; 21]%Z !! (0 + 1)%nat = Some next ∧
    dataLength [16; 21]%Z 26 (Z.of_nat 0) = Some ((next - 16 - 4) mod 2 ^ 32)%Z.
Proof.
  split.
  - apply (dataLength_spec [16; 21]%Z 26 1 21); reflexivity.
  - apply (dataLength_spec [16; 21]%Z 26 0 16); [reflexivity|simpl; lia].
Defined.

(** ** The loader *)

Section LoaderFacts.
Context {R : Type} `{ReadSeeker R}.
Variable fileMap : list string.
Variable LoadUnsupported : bool.

Lemma readTable_length n (fp fp' : R) tab :
  readTable n fp = (inr tab, fp') → length tab = n.
Proof.
  revert fp fp' tab. induction n as [|n IH]; intros fp fp' tab; simpl.
  - by intros [= <- <-].
  - destruct (binary_Read 4 fp) as [[e|v] fp1]; [discriminate|].
    destruct (readTable n fp1) as [[e|vs] fp2] eqn:Htab; [discriminate|].
    intros [= <- <-]. simpl. f_equal. eapply IH, Htab.
Qed.

(** A stored entry is the map with one key set. *)
Lemma storeEntry_Next isCompressed size len fileName (fp fp' : R) files files' :
  storeEntry isCompressed size len fileName fp files = Next fp' files' →
  ∃ data, files' = <[fileName := data]> files.
Proof.
  unfold storeEntry. destruct isCompressed.
  - destruct (uncompressData fp size len) as [[data e] fp1]. destruct e; [discriminate|].
    intros [= <- <-]. by exists data.
  - destruct (Read (Z.to_nat size) fp) as [[data e] fp1].
    destruct (negb (Z.of_nat (length data) =? size)%Z || bool_decide (e ≠ None));
      [discriminate|].
    intros [= <- <-]. by exists data.
Qed.

(** The payload path never ends the call with an archive, and never panics. *)
Lemma storeEntry_Stop isCompressed size len fileName (fp : R) files o :
  storeEntry isCompressed size len fileName fp files = Stop o →
  ∃ err, o = Return None err.
Proof.
  unfold storeEntry. destruct isCompressed.
  - destruct (uncompressData fp size len) as [[data e] fp1]. destruct e; [|discriminate].
    intros [= <-]. eauto.
  - destruct (Read (Z.to_nat size) fp) as [[data e] fp1].
    destruct (negb (Z.of_nat (length data) =? size)%Z || bool_decide (e ≠ None));
      [|discriminate].
    intros [= <-]. eauto.
Qed.

(** A short read of a raw payload that comes with no error ends the call with
    neither an archive nor an error. *)
Lemma storeEntry_short_read size len fileName (fp fp' : R) files data :
  Read (Z.to_nat size) fp = (data, None, fp') →
  Z.of_nat (length data) ≠ size →
  storeEntry false size len fileName fp files = Stop (Return None None).
Proof.
  intros Hread Hshort. unfold storeEntry. rewrite Hread.
  by rewrite (proj2 (Z.eqb_neq _ _) Hshort).
Qed.

(** The loop body on a slot that is present and whose header word is read. *)
Lemma loadSlot_present fileTable sz i offset (fp fp1 fp2 : R) h len fileName files :
  isPlaceHolder fileTable offset (Z.of_nat i) = Some false →
  Seek offset fp = (None, fp1) →
  binary_Read 4 fp1 = (inr h, fp2) →
  dataLength fileTable sz (Z.of_nat i) = Some len →
  fileMap !! i = Some fileName →
  loadSlot fileMap LoadUnsupported fileTable sz i offset fp files =
    if bool_decide (fileName = "") then
      if negb LoadUnsupported then Next fp2 files
      else storeEntry (headerCompressed h) (headerSize h) len
             (unsupportedName i) fp2 files
    else storeEntry (headerCompressed h) (headerSize h) len fileName fp2 files.
Proof.
  intros Hp Hseek Hhead Hlen Hname. unfold loadSlot.
  by rewrite Hp, Hseek, Hhead, Hlen, Hname.
Qed.

(** Every iteration keeps the keys of the map within the slots that are
    present. *)
Lemma loadSlot_keys fileTable sz i offset (fp fp' : R) files files' :
  fileTable !! i = Some offset →
  loadSlot fileMap LoadUnsupported fileTable sz i offset fp files = Next fp' files' →
  (∀ k, is_Some (files !! k) → provenance fileMap LoadUnsupported fileTable k) →
  ∀ k, is_Some (files' !! k) → provenance fileMap LoadUnsupported fileTable k.
Proof.
  intros Hi. unfold loadSlot.
  destruct (isPlaceHolder fileTable offset (Z.of_nat i)) as [[|]|] eqn:Hp;
    [destruct (fileMap !! i); [by intros [= <- <-]|discriminate]| |discriminate].
  destruct (Seek offset fp) as [[e|] fp1]; [discriminate|].
  destruct (binary_Read 4 fp1) as [[e|h] fp2]; [discriminate|].
  destruct (dataLength fileTable sz (Z.of_nat i)) as [len|]; [|discriminate].
  destruct (fileMap !! i) as [fileName|] eqn:Hname; [|discriminate].
  case_bool_decide as Hempty.
  - destruct LoadUnsupported eqn:Hflag; cbn [negb]; [|by intros [= <- <-]].
    intros Hstore Hold k. apply storeEntry_Next in Hstore as [data ->].
    destruct (decide (unsupportedName i = k)) as [<-|Hne].
    + intros _. exists i, offset. subst fileName. split_and!; auto.
    + rewrite lookup_insert_ne by done. apply Hold.
  - intros Hstore Hold k. apply storeEntry_Next in Hstore as [data ->].
    destruct (decide (fileName = k)) as [<-|Hne].
    + intros _. exists i, offset. split_and!; auto.
    + rewrite lookup_insert_ne by done. apply Hold.
Qed.

Lemma loadSlots_keys fileTable sz done offsets (fp fp' : R) files files' :
  fileTable = done ++ offsets →
  loadSlots fileMap LoadUnsupported fileTable sz (length done) offsets fp files
    = Next fp' files' →
  (∀ k, is_Some (files !! k) → provenance fileMap LoadUnsupported fileTable k) →
  ∀ k, is_Some (files' !! k) → provenance fileMap LoadUnsupported fileTable k.
Proof.
  revert done fp files. induction offsets as [|offset offsets IH];
    intros done fp files Htab; simpl.
  - by intros [= <- <-].
  - destruct (loadSlot fileMap LoadUnsupported fileTable sz (length done) offset fp files)
      as [fp1 files1|o] eqn:Hslot; [|discriminate].
    intros Hrest Hold.
    apply (IH (done ++ [offset]) fp1 files1).
    + by rewrite <- app_assoc.
    + rewrite length_app. simpl. by rewrite Nat.add_1_r.
    + eapply loadSlot_keys; [|exact Hslot|exact Hold].
      rewrite Htab. by apply list_lookup_middle.
Qed.

(** The loop never ends the call with an archive. *)
Lemma loadSlots_Stop fileTable sz i offsets (fp : R) files o :
  loadSlots fileMap LoadUnsupported fileTable sz i offsets fp files = Stop o →
  o = Panic ∨ ∃ err, o = Return None err.
Proof.
  revert i fp files. induction offsets as [|offset offsets IH];
    intros i fp files; simpl; [discriminate|].
  destruct (loadSlot fileMap LoadUnsupported fileTable sz i offset fp files)
    as [fp1 files1|o'] eqn:Hslot; [apply IH|].
  intros [= <-]. revert Hslot. unfold loadSlot.
  destruct (isPlaceHolder fileTable offset (Z.of_nat i)) as [[|]|];
    [destruct (fileMap !! i); [discriminate|intros [= <-]; by left]
    | |intros [= <-]; by left].
  destruct (Seek offset fp) as [[e|] fp1]; [intros [= <-]; right; eauto|].
  destruct (binary_Read 4 fp1) as [[e|h] fp2]; [intros [= <-]; right; eauto|].
  destruct (dataLength fileTable sz (Z.of_nat i)) as [len|];
    [|intros [= <-]; by left].
  destruct (fileMap !! i) as [fileName|]; [|intros [= <-]; by left].
  case_bool_decide.
  - destruct (negb LoadUnsupported); [discriminate|].
    intros Hs. right. by eapply storeEntry_Stop.
  - intros Hs. right. by eapply storeEntry_Stop.
Qed.

End LoaderFacts.

(** The loader does not panic: every index it uses is within range. *)
Lemma loadSlot_no_panic {R : Type} `{ReadSeeker R} fileMap LoadUnsupported
    fileTable sz i offset (fp : R) files :
  fileTable !! i = Some offset → length fileTable = length fileMap →
  loadSlot fileMap LoadUnsupported fileTable sz i offset fp files ≠ Stop Panic.
Proof.
  intros Hi Hlen. pose proof (lookup_lt_Some _ _ _ Hi) as Hlt.
  assert (Hplace : is_Some (isPlaceHolder fileTable offset (Z.of_nat i))).
  { unfold isPlaceHolder.
    destruct ((offset =? 0)%Z || (offset =? 4294967295)%Z); [eauto|].
    destruct (Z.eqb_spec (Z.of_nat i) (Z.of_nat (length fileTable) - 1)); [eauto|].
    destruct (successor_slot fileTable i offset Hi) as [next Hnext]; [done|].
    rewrite index_succ, Hnext. simpl. destruct (offset =? _)%Z; eauto. }
  assert (Hdata : is_Some (dataLength fileTable sz (Z.of_nat i))).
  { unfold dataLength.
    destruct (Z.eqb_spec (Z.of_nat i) (Z.of_nat (length fileTable) - 1)).
    - rewrite index_of_nat, Hi. simpl. eauto.
    - destruct (successor_slot fileTable i offset Hi) as [next Hnext]; [done|].
      rewrite index_succ, Hnext, index_of_nat, Hi. simpl. eauto. }
  assert (Hname : is_Some (fileMap !! i)) by (apply lookup_lt_is_Some; lia).
  destruct Hplace as [p Hp], Hdata as [len Hdata], Hname as [fileName Hname].
  unfold loadSlot. rewrite Hp. destruct p; [by rewrite Hname|].
  destruct (Seek offset fp) as [[e|] fp1]; [discriminate|].
  destruct (binary_Read 4 fp1) as [[e|h] fp2]; [discriminate|].
  rewrite Hdata, Hname.
  assert (Hstore : ∀ name, storeEntry (headerCompressed h) (headerSize h) len
                             name fp2 files ≠ Stop Panic).
  { intros name Hs. apply storeEntry_Stop in Hs as [err Herr]. discriminate. }
  case_bool_decide; [destruct (negb LoadUnsupported); [discriminate|]|]; apply Hstore.
Qed.

Lemma loadSlots_no_panic {R : Type} `{ReadSeeker R} fileMap LoadUnsupported
    fileTable sz done offsets (fp : R) files :
  fileTable = done ++ offsets → length fileTable = length fileMap →
  loadSlots fileMap LoadUnsupported fileTable sz (length done) offsets fp files
    ≠ Stop Panic.
Proof.
  revert done fp files. induction offsets as [|offset offsets IH];
    intros done fp files Htab Hlen; simpl; [discriminate|].
  destruct (loadSlot fileMap LoadUnsupported fileTable sz (length done) offset fp files)
    as [fp1 files1|o] eqn:Hslot.
  - replace (S (length done)) with (length (done ++ [offset]))
      by (rewrite length_app; simpl; lia).
    apply IH; [by rewrite <- app_assoc|exact Hlen].
  - intros [= ->]. revert Hslot. apply loadSlot_no_panic; [|exact Hlen].
    rewrite Htab. by apply list_lookup_middle.
Qed.

(** X1.  [OpenArchiveFrom] does not panic: every index into the file table
    and into the manifest is within range. *)
Lemma OpenArchiveFrom_no_panic {R : Type} `{ReadSeeker R} fileMap LoadUnsupported
    (fp : R) sz :
  OpenArchiveFrom fileMap LoadUnsupported fp sz ≠ Panic.
Proof.
  unfold OpenArchiveFrom.
  destruct (Read 4 fp) as [[bs e] fp1]. destruct e; [discriminate|].
  destruct (detectVariant _) as [type [e|]]; [discriminate|].
  destruct (binary_Read 4 fp1) as [[e|numFiles] fp2]; [discriminate|].
  destruct (Z.eqb_spec numFiles (Z.of_nat (length fileMap))) as [->|];
    [|discriminate]. cbn [negb].
  destruct (readTable _ fp2) as [[e|fileTable] fp3] eqn:Htab; [discriminate|].
  apply readTable_length in Htab. rewrite Nat2Z.id in Htab.
  destruct (loadSlots _ _ _ _ _ _ _ _) as [fp4 files|o] eqn:Hslots; [discriminate|].
  intros ->. revert Hslots.
  apply (loadSlots_no_panic fileMap LoadUnsupported fileTable sz []); auto.
Qed.

Lemma OpenArchiveFrom_no_panic_witness :
  OpenArchiveFrom ["A"%string] false (openFile truncatedArchive) 17 ≠ Panic.
Proof. apply (OpenArchiveFrom_no_panic ["A"%string] false (openFile truncatedArchive) 17). Defined.

(** A successful load, step by step: the four bytes of the identifier, the
    count, which is the manifest's length, the file table read after it, and
    the loop over that table, which leaves the archive's map. *)
Lemma OpenArchiveFrom_Return {R : Type} `{ReadSeeker R} (fileMap : list string)
    (LoadUnsupported : bool) (fp : R) (sz : Z) (arch : Archive) :
  OpenArchiveFrom fileMap LoadUnsupported fp sz = Return (Some arch) None →
  ∃ (archiveID : list byte) (fp1 fp2 fp3 fp4 : R) (fileTable : list Z),
    Read 4 fp = (archiveID, None, fp1) ∧
    binary_Read 4 fp1 = (inr (Z.of_nat (length fileMap)), fp2) ∧
    readTable (length fileMap) fp2 = (inr fileTable, fp3) ∧
    loadSlots fileMap LoadUnsupported fileTable sz 0 fileTable fp3 ∅
      = Next fp4 (Files arch).
Proof.
  unfold OpenArchiveFrom.
  destruct (Read 4 fp) as [[bs e] fp1] eqn:Hid. destruct e; [discriminate|].
  destruct (detectVariant _) as [type [e|]]; [discriminate|].
  destruct (binary_Read 4 fp1) as [[e|numFiles] fp2] eqn:Hnum; [discriminate|].
  destruct (Z.eqb_spec numFiles (Z.of_nat (length fileMap))) as [->|];
    [|discriminate]. cbn [negb]. rewrite Nat2Z.id.
  destruct (readTable _ fp2) as [[e|fileTable] fp3] eqn:Htab; [discriminate|].
  destruct (loadSlots _ _ _ _ _ _ _ _) as [fp4 files|o] eqn:Hslots.
  - intros [= <-]. exists bs, fp1, fp2, fp3, fp4, fileTable.
    repeat split; first [reflexivity|assumption].
  - intros ->. apply loadSlots_Stop in Hslots as [Hp|[err Herr]]; discriminate.
Qed.

(** C10.  After a successful load, take the file table that the loader read
    from the stream: after the four bytes of the identifier and the four of
    the count, one offset for each name of the manifest.  Every key of the
    archive's map comes from a slot of that table that [isPlaceHolder]
    classifies as present: it is the non-empty manifest name of that slot, or,
    with [LoadUnsupported] on only, the name [DATA.WAR.<index>] of a slot the
    manifest has no name for.  Placeholders contribute nothing: a name that
    only placeholder slots carry is not a key, and the iteration of the loop
    at a placeholder slot leaves the map, whatever it is, and the stream as
    they are. *)
Theorem archive_keys {R : Type} `{ReadSeeker R} (fileMap : list string)
    (LoadUnsupported : bool) (fp : R) (sz : Z) (arch : Archive) :
  OpenArchiveFrom fileMap LoadUnsupported fp sz = Return (Some arch) None →
  ∃ (archiveID : list byte) (fp1 fp2 fp3 : R) (fileTable : list Z),
    Read 4 fp = (archiveID, None, fp1) ∧
    binary_Read 4 fp1 = (inr (Z.of_nat (length fileMap)), fp2) ∧
    readTable (length fileMap) fp2 = (inr fileTable, fp3) ∧
    length fileTable = length fileMap ∧
    (∀ k, is_Some (Files arch !! k) →
      ∃ (i : nat) (offset : Z),
        fileTable !! i = Some offset ∧
        isPlaceHolder fileTable offset (Z.of_nat i) = Some false ∧
        ((fileMap !! i = Some k ∧ k ≠ "") ∨
         (LoadUnsupported = true ∧ fileMap !! i = Some "" ∧
          k = "DATA.WAR." +:+ pretty i))) ∧
    (∀ k,
      (∀ (i : nat) (offset : Z),
         fileTable !! i = Some offset →
         (fileMap !! i = Some k ∧ k ≠ "") ∨
         (LoadUnsupported = true ∧ fileMap !! i = Some "" ∧
          k = "DATA.WAR." +:+ pretty i) →
         isPlaceHolder fileTable offset (Z.of_nat i) = Some true) →
      Files arch !! k = None) ∧
    (∀ (i : nat) (offset : Z) (fp' : R) (files : gmap string (list byte)),
      fileTable !! i = Some offset →
      isPlaceHolder fileTable offset (Z.of_nat i) = Some true →
      loadSlot fileMap LoadUnsupported fileTable sz i offset fp' files
        = Next fp' files).
Proof.
  intros Hload.
  apply OpenArchiveFrom_Return in Hload
    as (archiveID & fp1 & fp2 & fp3 & fp4 & fileTable & Hid & Hnum & Htab & Hslots).
  pose proof (readTable_length _ _ _ _ Htab) as Hlen.
  assert (Hkeys : ∀ k, is_Some (Files arch !! k) →
            ∃ (i : nat) (offset : Z),
              fileTable !! i = Some offset ∧
              isPlaceHolder fileTable offset (Z.of_nat i) = Some false ∧
              ((fileMap !! i = Some k ∧ k ≠ "") ∨
               (LoadUnsupported = true ∧ fileMap !! i = Some "" ∧
                k = "DATA.WAR." +:+ pretty i))).
  { apply (loadSlots_keys fileMap LoadUnsupported fileTable sz [] fileTable
             fp3 fp4 ∅ (Files arch)); [reflexivity|exact Hslots|].
    intros k [v Hv]. by rewrite lookup_empty in Hv. }
  exists archiveID, fp1, fp2, fp3, fileTable.
  repeat (split; [assumption|]). split.
  - intros k Hall. destruct (Files arch !! k) as [v|] eqn:Hk; [|reflexivity].
    destruct (Hkeys k) as (i & offset & Hi & Hp & Hcarries); [by rewrite Hk|].
    specialize (Hall i offset Hi Hcarries). congruence.
  - intros i offset fp' files Hi Hp. unfold loadSlot. rewrite Hp.
    destruct (fileMap !! i) as [name|] eqn:Hname; [reflexivity|].
    apply lookup_ge_None in Hname. apply lookup_lt_Some in Hi. lia.
Qed.

Lemma archive_keys_witness :
  ∃ (archiveID : list byte) (fp1 fp2 fp3 : File) (fileTable : list Z),
    Read 4 (openFile placeholderArchive) = (archiveID, None, fp1) ∧
    binary_Read 4 fp1 = (inr (Z.of_nat (length ["A"%string; "B"%string])), fp2) ∧
    readTable (length ["A"%string; "B"%string]) fp2 = (inr fileTable, fp3) ∧
    length fileTable = length ["A"%string; "B"%string] ∧
    (∀ k, is_Some (Files {| Type_ := "DOS Retail";
                            Files := {[ "B"%string := [x41; x42] ]} |} !! k) →
      ∃ (i : nat) (offset : Z),
        fileTable !! i = Some offset ∧
        isPlaceHolder fileTable offset (Z.of_nat i) = Some false ∧
        ((["A"%string; "B"%string] !! i = Some k ∧ k ≠ "") ∨
         (false = true ∧ ["A"%string; "B"%string] !! i = Some "" ∧
          k = "DATA.WAR." +:+ pretty i))) ∧
    (∀ k,
      (∀ (i : nat) (offset : Z),
         fileTable !! i = Some offset →
         (["A"%string; "B"%string] !! i = Some k ∧ k ≠ "") ∨
         (false = true ∧ ["A"%string; "B"%string] !! i = Some "" ∧
          k = "DATA.WAR." +:+ pretty i) →
         isPlaceHolder fileTable offset (Z.of_nat i) = Some true) →
      Files {| Type_ := "DOS Retail";
               Files := {[ "B"%string := [x41; x42] ]} |} !! k = None) ∧
    (∀ (i : nat) (offset : Z) (fp' : File) (files : gmap string (list byte)),
      fileTable !! i = Some offset →
      isPlaceHolder fileTable offset (Z.of_nat i) = Some true →
      loadSlot ["A"%string; "B"%string] false fileTable 22 i offset fp' files
        = Next fp' files).
Proof.
  apply (@archive_keys File File_ReadSeeker ["A"%string; "B"%string] false
           (openFile placeholderArchive) 22
           {| Type_ := "DOS Retail"; Files := {[ "B"%string := [x41; x42] ]} |}).
  vm_compute. reflexivity.
Defined.

(** ** Reading from a file *)

Lemma byte_of_N_small n : (n < 256)%N → Byte.to_N (default x00 (Byte.of_N n)) = n.
Proof.
  intros Hn. destruct (Byte.of_N n) as [b|] eqn:Hb.
  - simpl. by apply Byte.to_of_N.
  - apply Byte.of_N_None_iff in Hb. lia.
Qed.

Lemma littleEndian_le32 v : (0 ≤ v < 2 ^ 32)%Z → littleEndian (le32 v) = v.
Proof.
  intros Hv. unfold le32, littleEndian. cbn [map foldr].
  rewrite !byte_of_N_small.
  2-5: apply N2Z.inj_lt; rewrite Z2N.id; [apply Z.mod_pos_bound; lia|apply Z.mod_pos_bound; lia].
  rewrite !Z2N.id by (apply Z.mod_pos_bound; lia).
  change (256 ^ 0)%Z with 1%Z. change (256 ^ 1)%Z with 256%Z.
  change (256 ^ 2)%Z with (256 * 256)%Z. change (256 ^ 3)%Z with (256 * 256 * 256)%Z.
  rewrite Z.div_1_r.
  rewrite <- !Z.div_div by lia.
  pose proof (Z.div_mod v 256 ltac:(lia)).
  pose proof (Z.div_mod (v / 256) 256 ltac:(lia)).
  pose proof (Z.div_mod (v / 256 / 256) 256 ltac:(lia)).
  assert (v / 256 / 256 / 256 < 256)%Z.
  { rewrite !Z.div_div by lia. apply Z.div_lt_upper_bound; lia. }
  assert (0 <= v / 256 / 256 / 256)%Z by (repeat apply Z.div_pos; lia).
  rewrite (Z.mod_small (v / 256 / 256 / 256) 256) by lia.
  lia.
Qed.

Lemma ReadAtLeast_loop_done {R : Type} `{Reader R} fuel min buf (r : R) :
  min ≤ length buf → ReadAtLeast_loop fuel min buf r = (buf, None, r).
Proof.
  intros Hlen. destruct fuel; simpl;
    destruct (Nat.ltb_spec (length buf) min); (lia || reflexivity).
Qed.

Lemma length_le32 v : length (le32 v) = 4.
Proof. reflexivity. Qed.

(** Reading a [uint32] that lies at the position of a file. *)
Lemma File_binary_Read c p v rest :
  drop p c = le32 v ++ rest → (0 ≤ v < 2 ^ 32)%Z →
  binary_Read 4 {| contents := c; pos := p |}
  = (inr v, {| contents := c; pos := p + 4 |}).
Proof.
  intros Hdrop Hv.
  assert (Hlt : p < length c).
  { destruct (Nat.lt_ge_cases p (length c)) as [|Hge]; [done|].
    rewrite drop_ge in Hdrop by done. discriminate. }
  assert (Hread : Read 4 {| contents := c; pos := p |}
                  = (le32 v, None, {| contents := c; pos := p + 4 |})).
  { simpl. unfold File_Read. simpl.
    destruct (Nat.leb_spec (length c) p); [lia|].
    rewrite Hdrop. reflexivity. }
  unfold binary_Read, ReadFull. cbn [ReadAtLeast_loop length Nat.ltb Nat.leb Nat.sub].
  rewrite Hread. rewrite ReadAtLeast_loop_done by (rewrite app_nil_l, length_le32; lia).
  rewrite app_nil_l, length_le32. cbn [Nat.leb].
  by rewrite littleEndian_le32.
Qed.

Lemma File_readTable offsets c p rest :
  Forall (λ v, 0 ≤ v < 2 ^ 32)%Z offsets →
  drop p c = encodeTable offsets ++ rest →
  readTable (length offsets) {| contents := c; pos := p |}
  = (inr offsets, {| contents := c; pos := p + 4 * length offsets |}).
Proof.
  intros Hrange. revert p. induction Hrange as [|v offsets Hv _ IH]; intros p Hdrop.
  - simpl. by rewrite Nat.add_0_r.
  - cbn [length readTable]. unfold encodeTable in Hdrop. rewrite bind_cons in Hdrop.
    rewrite <- app_assoc in Hdrop.
    cbn [ReadSeeker_Reader File_ReadSeeker].
    rewrite (File_binary_Read c p v _ Hdrop Hv).
    rewrite (IH (p + 4)).
    + f_equal. f_equal. lia.
    + rewrite <- drop_drop, Hdrop. reflexivity.
Qed.

Lemma length_encodeTable offsets : length (encodeTable offsets) = 4 * length offsets.
Proof.
  unfold encodeTable. induction offsets as [|v offsets IH]; [reflexivity|].
  rewrite bind_cons, length_app, IH, length_le32. simpl. lia.
Qed.


Lemma dataLength_defined (tab : list Z) sz (i : nat) o :
  tab !! i = Some o → is_Some (dataLength tab sz (Z.of_nat i)).
Proof.
  intros Hi. unfold dataLength.
  destruct (Z.eqb_spec (Z.of_nat i) (Z.of_nat (length tab) - 1)).
  - rewrite index_of_nat, Hi. simpl. eauto.
  - destruct (successor_slot tab i o Hi) as [next Hnext]; [done|].
    rewrite index_succ, Hnext, index_of_nat, Hi. simpl. eauto.
Qed.

(** A slot whose offset is no sentinel and is not one below the next offset
    is present. *)
Lemma isPlaceHolder_gap (tab : list Z) (i : nat) o :
  tab !! i = Some o → o ≠ 0%Z → o ≠ 0xFFFFFFFF%Z →
  (∀ next, tab !! (i + 1) = Some next → o ≠ wrap32 (next - 1)) →
  isPlaceHolder tab o (Z.of_nat i) = Some false.
Proof.
  intros Hi H0 H1 Hgap. unfold isPlaceHolder.
  rewrite (proj2 (Z.eqb_neq _ _) H0), (proj2 (Z.eqb_neq _ _) H1). cbn [orb].
  destruct (Z.eqb_spec (Z.of_nat i) (Z.of_nat (length tab) - 1)); [done|].
  destruct (successor_slot tab i o Hi) as [next Hnext]; [done|].
  rewrite index_succ, Hnext. cbn [mbind option_bind].
  by rewrite (proj2 (Z.eqb_neq _ _) (Hgap next Hnext)).
Qed.

(** Whatever the manifest is, as long as it has a first name that is kept,
    there is a file on which the load ends with neither an archive nor an
    error. *)
Lemma short_read_any_manifest (fileMap : list string) (LoadUnsupported : bool)
    (fileName : string) (names : list string) (sz : Z) :
  fileMap = fileName :: names →
  fileName ≠ ""%string ∨ LoadUnsupported = true →
  (Z.of_nat (length fileMap) < 2 ^ 20)%Z →
  OpenArchiveFrom fileMap LoadUnsupported
    (openFile (truncatedArchiveFor (length fileMap))) sz
  = Return None None.
Proof.
  intros Hmap Hkept Hsmall.
  set (n := length fileMap) in *.
  assert (Hn : n = S (length names)) by (unfold n; by rewrite Hmap).
  set (o0 := Z.of_nat (8 + 4 * n)).
  set (table := o0 :: replicate (n - 1) 0xFFFFFFFF%Z).
  set (c := truncatedArchiveFor n).
  assert (Hc : c = (dosRetail ++ le32 (Z.of_nat n) ++ encodeTable table)
                     ++ le32 2 ++ [x41]).
  { unfold c, truncatedArchiveFor. fold o0. fold table. by rewrite <- !app_assoc. }
  assert (Htablen : length table = n).
  { unfold table. simpl. rewrite length_replicate. lia. }
  assert (Hprefix : length (dosRetail ++ le32 (Z.of_nat n) ++ encodeTable table)
                    = 8 + 4 * n).
  { rewrite !length_app, length_encodeTable, Htablen. simpl. lia. }
  assert (Hrange : Forall (λ v, 0 ≤ v < 2 ^ 32)%Z table).
  { unfold table. constructor.
    - unfold o0. lia.
    - apply Forall_replicate. lia. }
  assert (Ho0 : (o0 ≠ 0 ∧ o0 < 2 ^ 24)%Z).
  { unfold o0. lia. }
  assert (Hdrop : ∀ k, drop (8 + 4 * n + k) c = drop k (le32 2 ++ [x41])).
  { intros k. rewrite Hc, <- drop_drop. f_equal. by apply drop_app_length'. }
  unfold OpenArchiveFrom.
  assert (Hread : Read 4 (openFile c) = (dosRetail, None, {| contents := c; pos := 4 |}))
    by reflexivity.
  cbn [ReadSeeker_Reader File_ReadSeeker].
  rewrite Hread.
  change (detectVariant (take 4 (dosRetail ++ replicate 4 x00)))
    with ("DOS Retail"%string, @None error).
  rewrite (File_binary_Read c 4 (Z.of_nat n) (encodeTable table ++ le32 2 ++ [x41]));
    [|reflexivity|lia].
  rewrite Z.eqb_refl. cbn [negb]. rewrite Nat2Z.id.
  change (4 + 4) with 8. rewrite <- Htablen at 1.
  rewrite (File_readTable table c 8 (le32 2 ++ [x41]) Hrange); [|reflexivity].
  rewrite Htablen.
  assert (Hplace : isPlaceHolder table o0 (Z.of_nat 0) = Some false).
  { apply (isPlaceHolder_gap table 0 o0); [reflexivity|lia|lia|].
    intros next Hnext. unfold table in Hnext. simpl in Hnext.
    apply lookup_replicate in Hnext as [-> _].
    change (wrap32 (4294967295 - 1)) with 4294967294%Z. lia. }
  assert (Hdata : ∃ len, dataLength table sz (Z.of_nat 0) = Some len).
  { apply (dataLength_defined table sz 0 o0). reflexivity. }
  destruct Hdata as [len Hdata].
  assert (Hseek : Seek o0 {| contents := c; pos := 8 + 4 * n |}
                  = (None, {| contents := c; pos := 8 + 4 * n |})).
  { simpl. unfold File_Seek. destruct (Z.ltb_spec o0 0); [lia|].
    simpl. unfold o0. by rewrite Nat2Z.id. }
  assert (Hhead : binary_Read 4 {| contents := c; pos := 8 + 4 * n |}
                  = (inr 2%Z, {| contents := c; pos := 8 + 4 * n + 4 |})).
  { apply (File_binary_Read c (8 + 4 * n) 2 [x41]); [|lia].
    rewrite <- (Nat.add_0_r (8 + 4 * n)). apply Hdrop. }
  assert (Hshort : ∀ name files,
            storeEntry false 2 len name {| contents := c; pos := 8 + 4 * n + 4 |} files
            = Stop (Return None None)).
  { intros name files.
    apply (storeEntry_short_read 2 len name _
             {| contents := c; pos := 8 + 4 * n + 4 + 1 |} files [x41]); [|simpl; lia].
    assert (Hlen : length c = 8 + 4 * n + 5).
    { rewrite Hc, length_app, Hprefix. reflexivity. }
    change (Z.to_nat 2) with 2.
    cbn [Read ReadSeeker_Reader File_ReadSeeker File_Reader].
    unfold File_Read. cbn [contents pos Nat.eqb].
    destruct (Nat.leb_spec (length c) (8 + 4 * n + 4)); [lia|].
    rewrite Hdrop. reflexivity. }
  unfold table at 2. cbn [loadSlots]. fold table.
  rewrite (loadSlot_present fileMap LoadUnsupported table sz 0 o0 _ _ _ 2 len fileName ∅
             Hplace Hseek Hhead Hdata); [|by rewrite Hmap].
  change (headerCompressed 2) with false. change (headerSize 2) with 2%Z.
  rewrite !Hshort.
  case_bool_decide as Hempty; [|reflexivity].
  destruct Hkept as [Hne| ->]; [done|reflexivity].
Qed.

(** C2 does not hold of the code.  The archive announces a raw entry of two
    bytes and holds one: [fp.Read] returns one byte and no error, the test
    [num != len(data) || err != nil] succeeds on its first half, and
    [return nil, err] returns that [nil] error: the caller gets neither an
    archive nor an error. *)
Theorem short_read_returns_nil_nil :
  OpenArchiveFrom ["A"%string] false (openFile truncatedArchive) 17
  = Return None None.
Proof. vm_compute. reflexivity. Qed.

(** C3.  For a slot that is present, with [h] the header word read at its
    offset, the payload is decoded as compressed exactly when
    [h >> 24 == 0x20], and with the decoded size [h & 0x00FFFFFF]; this is
    [h] modulo [2^24], and differs from [h & 0x1FFFFFFF] as soon as one of
    the bits 24 to 28 of [h] is set. *)
Theorem header_decoding {R : Type} `{ReadSeeker R} (fileMap : list string)
    (LoadUnsupported : bool) (fileTable : list Z) (sz : Z) (i : nat)
    (offset : Z) (fp fp1 fp2 : R) (h len : Z) (fileName : string)
    (files : gmap string (list byte)) :
  isPlaceHolder fileTable offset (Z.of_nat i) = Some false →
  Seek offset fp = (None, fp1) →
  binary_Read 4 fp1 = (inr h, fp2) →
  dataLength fileTable sz (Z.of_nat i) = Some len →
  fileMap !! i = Some fileName →
  fileName ≠ "" ∨ LoadUnsupported = true →
  loadSlot fileMap LoadUnsupported fileTable sz i offset fp files =
    storeEntry (Z.shiftr h 24 =? 0x20)%Z (Z.land h 0x00FFFFFF) len
      (if bool_decide (fileName = "") then unsupportedName i else fileName)
      fp2 files ∧
  (∀ fileName' fp' files',
     storeEntry true (Z.land h 0x00FFFFFF) len fileName' fp' files' =
       match uncompressData fp' (Z.land h 0x00FFFFFF) len with
       | (_, Some e, _) => Stop (Return None (Some e))
       | (data, None, fp'') => Next fp'' (<[fileName' := data]> files')
       end) ∧
  Z.land h 0x00FFFFFF = (h mod 2 ^ 24)%Z ∧
  (Z.land h 0x00FFFFFF = Z.land h 0x1FFFFFFF ↔ (h mod 2 ^ 29 < 2 ^ 24)%Z).
Proof.
  intros Hp Hseek Hhead Hlen Hname Hkept.
  assert (H24 : Z.land h 0x00FFFFFF = (h mod 2 ^ 24)%Z).
  { change 0x00FFFFFF%Z with (Z.ones 24). by rewrite Z.land_ones. }
  assert (H29 : Z.land h 0x1FFFFFFF = (h mod 2 ^ 29)%Z).
  { change 0x1FFFFFFF%Z with (Z.ones 29). by rewrite Z.land_ones. }
  split_and!.
  - rewrite (loadSlot_present fileMap LoadUnsupported fileTable sz i offset
               fp fp1 fp2 h len fileName files Hp Hseek Hhead Hlen Hname).
    case_bool_decide as Hempty; [|reflexivity].
    destruct Hkept as [Hne| ->]; [done|reflexivity].
  - reflexivity.
  - exact H24.
  - rewrite H24, H29. split.
    + intros Heq. rewrite <- Heq. apply Z.mod_pos_bound. lia.
    + intros Hlt.
      replace (2 ^ 29)%Z with (2 ^ 24 * 2 ^ 5)%Z in * by reflexivity.
      rewrite Z.rem_mul_r in * by lia.
      pose proof (Z.mod_pos_bound h (2 ^ 24) ltac:(lia)).
      pose proof (Z.mod_pos_bound (h / 2 ^ 24) (2 ^ 5) ltac:(lia)).
      nia.
Qed.

Lemma header_decoding_witness :
  loadSlot ["A"%string] false [12%Z] 18 0 12 (openFile oneSlotArchive) ∅ =
    storeEntry (Z.shiftr 2 24 =? 0x20)%Z (Z.land 2 0x00FFFFFF) 2
      (if bool_decide ("A"%string = "") then unsupportedName 0 else "A"%string)
      {| contents := oneSlotArchive; pos := 16 |} ∅ ∧
  Z.land 2 0x00FFFFFF = (2 mod 2 ^ 24)%Z.
Proof.
  destruct (header_decoding ["A"%string] false [12%Z] 18 0 12
              (openFile oneSlotArchive)
              {| contents := oneSlotArchive; pos := 12 |}
              {| contents := oneSlotArchive; pos := 16 |}
              2 2 "A" ∅) as (Hslot & _ & Hsize & _).
  - reflexivity.
  - reflexivity.
  - vm_compute. reflexivity.
  - reflexivity.
  - reflexivity.
  - left. discriminate.
  - split; [exact Hslot|exact Hsize].
Defined.

(** C6.  With [archiveID] the four bytes the first read leaves in the
    array: each of the four known values gets its label; a value that is none
    of them ends the load with the error "unknown version"; a Mac value ends
    it with [ErrUnsupportedVersion]; and a load that returns an archive has
    seen a DOS value and carries its label. *)
Theorem variant_detection {R : Type} `{ReadSeeker R} (fileMap : list string)
    (LoadUnsupported : bool) (fp fp1 : R) (sz : Z) (bs : list byte) :
  Read 4 fp = (bs, None, fp1) →
  let archiveID := take 4 (bs ++ replicate 4 x00) in
  (detectVariant dosRetail = ("DOS Retail", None) ∧
   detectVariant dosShareware = ("DOS Shareware", None) ∧
   detectVariant macRetail = ("Mac Retail", Some ErrUnsupportedVersion) ∧
   detectVariant macShareware = ("Mac Shareware", Some ErrUnsupportedVersion)) ∧
  (archiveID ∉ [dosRetail; dosShareware; macRetail; macShareware] →
   OpenArchiveFrom fileMap LoadUnsupported fp sz
   = Return None (Some (errorString "unknown version"))) ∧
  (archiveID = macRetail ∨ archiveID = macShareware →
   OpenArchiveFrom fileMap LoadUnsupported fp sz
   = Return None (Some ErrUnsupportedVersion)) ∧
  (∀ arch err,
     OpenArchiveFrom fileMap LoadUnsupported fp sz = Return (Some arch) err →
     (archiveID = dosRetail ∧ Type_ arch = "DOS Retail") ∨
     (archiveID = dosShareware ∧ Type_ arch = "DOS Shareware")).
Proof.
  intros Hread archiveID. split_and!; try reflexivity.
  - intros Hnone. unfold OpenArchiveFrom. rewrite Hread. fold archiveID.
    unfold detectVariant.
    repeat (case_decide as Heq;
            [exfalso; apply Hnone; rewrite Heq; set_solver|clear Heq]).
    reflexivity.
  - intros Hmac. unfold OpenArchiveFrom. rewrite Hread. fold archiveID.
    by destruct Hmac as [-> | ->].
  - intros arch err. unfold OpenArchiveFrom. rewrite Hread. fold archiveID.
    unfold detectVariant.
    destruct (decide (archiveID = dosRetail)) as [Hid|_];
      [|destruct (decide (archiveID = dosShareware)) as [Hid|_]].
    3: { repeat case_decide; discriminate. }
    all: destruct (binary_Read 4 fp1) as [[e|numFiles] fp2]; [discriminate|].
    all: destruct (negb _); [discriminate|].
    all: destruct (readTable _ fp2) as [[e|fileTable] fp3]; [discriminate|].
    all: destruct (loadSlots _ _ _ _ _ _ _ _) as [fp4 files|o] eqn:Hslots.
    all: try (intros [= <- <-]; auto).
    all: intros ->;
      apply loadSlots_Stop in Hslots as [Hp|[err' Herr]]; discriminate.
Qed.

Lemma variant_detection_witness :
  OpenArchiveFrom ["A"%string] false (openFile [x00; x00; x00; x1a; x01]) 5
  = Return None (Some ErrUnsupportedVersion).
Proof.
  assert (Hread : Read 4 (openFile [x00; x00; x00; x1a; x01])
                  = ([x00; x00; x00; x1a], None,
                     {| contents := [x00; x00; x00; x1a; x01]; pos := 4 |}))
    by reflexivity.
  destruct (@variant_detection File File_ReadSeeker ["A"%string] false _ _ 5 _ Hread)
    as (_ & _ & Hmac & _).
  apply Hmac. left. reflexivity.
Defined.

(** ** Slots without a manifest name *)

Lemma unsupportedName_inj i j : unsupportedName i = unsupportedName j → i = j.
Proof.
  unfold unsupportedName. intros Heq.
  apply (inj (String.app "DATA.WAR.")) in Heq. by apply (inj pretty) in Heq.
Qed.

(** C7, as the code has it.  For a present slot [i] whose manifest name is
    empty, once its header word is read: with [LoadUnsupported] off the
    iteration ends with the map as it was; with [LoadUnsupported] on the
    payload is decoded and, if that succeeds, stored under
    [DATA.WAR.<i>].  That name is not empty, differs from the name made for
    any other index, and is not a manifest name as long as no manifest name
    begins with [DATA.WAR.]. *)
Theorem unnamed_slot {R : Type} `{ReadSeeker R} (fileMap : list string)
    (LoadUnsupported : bool) (fileTable : list Z) (sz : Z) (i : nat)
    (offset : Z) (fp fp1 fp2 : R) (h len : Z)
    (files : gmap string (list byte)) :
  isPlaceHolder fileTable offset (Z.of_nat i) = Some false →
  Seek offset fp = (None, fp1) →
  binary_Read 4 fp1 = (inr h, fp2) →
  dataLength fileTable sz (Z.of_nat i) = Some len →
  fileMap !! i = Some ""%string →
  (LoadUnsupported = false →
   loadSlot fileMap LoadUnsupported fileTable sz i offset fp files
   = Next fp2 files) ∧
  (LoadUnsupported = true →
   loadSlot fileMap LoadUnsupported fileTable sz i offset fp files
   = storeEntry (headerCompressed h) (headerSize h) len
       ("DATA.WAR." +:+ pretty i) fp2 files ∧
   ∀ fp' files',
     loadSlot fileMap LoadUnsupported fileTable sz i offset fp files
     = Next fp' files' →
     ∃ data, files' = <[("DATA.WAR." +:+ pretty i) := data]> files) ∧
  "DATA.WAR." +:+ pretty i ≠ ""%string ∧
  (∀ j : nat, "DATA.WAR." +:+ pretty j = "DATA.WAR." +:+ pretty i → j = i) ∧
  ((∀ name rest, name ∈ fileMap → name ≠ "DATA.WAR." +:+ rest) →
   "DATA.WAR." +:+ pretty i ∉ fileMap).
Proof.
  intros Hp Hseek Hhead Hlen Hname.
  pose proof (loadSlot_present fileMap LoadUnsupported fileTable sz i offset
                fp fp1 fp2 h len "" files Hp Hseek Hhead Hlen Hname) as Hslot.
  rewrite bool_decide_eq_true_2 in Hslot by reflexivity.
  split_and!.
  - intros ->. exact Hslot.
  - intros ->. split; [exact Hslot|].
    intros fp' files'. rewrite Hslot. cbn [negb]. apply storeEntry_Next.
  - discriminate.
  - intros j. apply unsupportedName_inj.
  - intros Hnames Hin. by apply (Hnames _ (pretty i)) in Hin.
Qed.

Lemma unnamed_slot_witness :
  loadSlot [""%string] true [12%Z] 18 0 12 (openFile oneSlotArchive) ∅
  = Next {| contents := oneSlotArchive; pos := 18 |}
         {[ "DATA.WAR.0"%string := [x41; x42] ]}.
Proof.
  destruct (unnamed_slot [""%string] true [12%Z] 18 0 12
              (openFile oneSlotArchive)
              {| contents := oneSlotArchive; pos := 12 |}
              {| contents := oneSlotArchive; pos := 16 |}
              2 2 ∅) as (_ & Hon & _).
  - reflexivity.
  - reflexivity.
  - vm_compute. reflexivity.
  - reflexivity.
  - reflexivity.
  - destruct (Hon eq_refl) as [-> _]. vm_compute. reflexivity.
Defined.

(** C7 as stated fails on the last point: nothing keeps the name made from
    the index apart from the manifest's names.  With a manifest that names
    slot 0 [DATA.WAR.1] and has no name for slot 1, the entry of slot 1
    replaces the entry of slot 0. *)
Lemma unsupportedName_clash_counterexample :
  ∃ arch,
    OpenArchiveFrom ["DATA.WAR.1"%string; ""%string] true
      (openFile twoSlotArchive) 26 = Return (Some arch) None ∧
    unsupportedName 1 ∈ ["DATA.WAR.1"%string; ""%string] ∧
    Files arch !! "DATA.WAR.1"%string = Some [x42] ∧
    size (Files arch) = 1%nat.
Proof.
  exists {| Type_ := "DOS Retail"; Files := {[ "DATA.WAR.1"%string := [x42] ]} |}.
  split_and!.
  - vm_compute. reflexivity.
  - vm_compute. left.
  - reflexivity.
  - reflexivity.
Qed.

(** * Further properties *)

(** ** Which names can be opened *)

Section Completeness.
Context {R : Type} `{ReadSeeker R}.
Variable fileMap : list string.
Variable LoadUnsupported : bool.

Lemma storeEntry_keeps isCompressed size len fileName (fp fp' : R) files files' :
  storeEntry isCompressed size len fileName fp files = Next fp' files' →
  is_Some (files' !! fileName) ∧ ∀ k, is_Some (files !! k) → is_Some (files' !! k).
Proof.
  intros Hs. apply storeEntry_Next in Hs as [data ->]. split.
  - rewrite lookup_insert_eq. eauto.
  - intros k Hk. destruct (decide (fileName = k)) as [->|Hne].
    + rewrite lookup_insert_eq. eauto.
    + by rewrite lookup_insert_ne.
Qed.

Lemma loadSlot_complete fileTable sz i offset (fp fp' : R) files files' :
  loadSlot fileMap LoadUnsupported fileTable sz i offset fp files = Next fp' files' →
  (∀ k, is_Some (files !! k) → is_Some (files' !! k)) ∧
  (isPlaceHolder fileTable offset (Z.of_nat i) = Some false →
   ∀ k, carries fileMap LoadUnsupported i k → is_Some (files' !! k)).
Proof.
  unfold loadSlot.
  destruct (isPlaceHolder fileTable offset (Z.of_nat i)) as [[|]|] eqn:Hp;
    [destruct (fileMap !! i);
       [intros [= <- <-]; split; [auto|discriminate]|discriminate]
    | |discriminate].
  destruct (Seek offset fp) as [[e|] fp1]; [discriminate|].
  destruct (binary_Read 4 fp1) as [[e|h] fp2]; [discriminate|].
  destruct (dataLength fileTable sz (Z.of_nat i)) as [len|]; [|discriminate].
  destruct (fileMap !! i) as [fileName|] eqn:Hname; [|discriminate].
  case_bool_decide as Hempty.
  - destruct LoadUnsupported eqn:Hflag; cbn [negb].
    + intros Hs. apply storeEntry_keeps in Hs as [Hnew Hold]. split; [exact Hold|].
      intros _ k [[Hk Hne]|(_ & _ & ->)]; [congruence|exact Hnew].
    + intros [= <- <-]. split; [auto|].
      intros _ k [[Hk Hne]|(Hf & _)]; [congruence|discriminate].
  - intros Hs. apply storeEntry_keeps in Hs as [Hnew Hold]. split; [exact Hold|].
    intros _ k [[Hk Hne]|(_ & Hk & _)]; [|congruence].
    by replace k with fileName by congruence.
Qed.

Lemma loadSlots_complete fileTable sz i offsets (fp fp' : R) files files' :
  loadSlots fileMap LoadUnsupported fileTable sz i offsets fp files = Next fp' files' →
  (∀ k, is_Some (files !! k) → is_Some (files' !! k)) ∧
  (∀ j offset k,
     offsets !! j = Some offset →
     isPlaceHolder fileTable offset (Z.of_nat (i + j)) = Some false →
     carries fileMap LoadUnsupported (i + j) k → is_Some (files' !! k)).
Proof.
  revert i fp files. induction offsets as [|offset offsets IH];
    intros i fp files; cbn [loadSlots].
  - intros [= <- <-]. split; [auto|]. intros j o k Hj. by destruct j.
  - destruct (loadSlot fileMap LoadUnsupported fileTable sz i offset fp files)
      as [fp1 files1|o] eqn:Hslot; [|discriminate].
    intros Hrest. apply loadSlot_complete in Hslot as [Hold1 Hnew1].
    apply IH in Hrest as [Hold Hnew]. split; [auto|].
    intros [|j] o k Hj Hp Hk.
    + injection Hj as <-. rewrite Nat.add_0_r in Hp, Hk. auto.
    + apply (Hnew j o k Hj); by replace (S i + j) with (i + S j) by lia.
Qed.

End Completeness.

(** X2.  A call of [OpenArchiveFrom] that returns an archive returns no error
    with it. *)
Theorem OpenArchiveFrom_archive_no_error {R : Type} `{ReadSeeker R}
    (fileMap : list string) (LoadUnsupported : bool) (fp : R) (sz : Z)
    (arch : Archive) (err : option error) :
  OpenArchiveFrom fileMap LoadUnsupported fp sz = Return (Some arch) err →
  err = None.
Proof.
  unfold OpenArchiveFrom.
  destruct (Read 4 fp) as [[bs e] fp1]. destruct e; [discriminate|].
  destruct (detectVariant _) as [type [e|]]; [discriminate|].
  destruct (binary_Read 4 fp1) as [[e|numFiles] fp2]; [discriminate|].
  destruct (negb _); [discriminate|].
  destruct (readTable _ fp2) as [[e|fileTable] fp3]; [discriminate|].
  destruct (loadSlots _ _ _ _ _ _ _ _) as [fp4 files|o] eqn:Hslots.
  - by intros [= _ <-].
  - intros ->. apply loadSlots_Stop in Hslots as [Hp|[err' Herr]]; congruence.
Qed.

Lemma OpenArchiveFrom_archive_no_error_witness : (None : option error) = None.
Proof.
  apply (OpenArchiveFrom_archive_no_error ["A"%string] false
           (openFile oneSlotArchive) 18
           {| Type_ := "DOS Retail"; Files := {[ "A"%string := [x41; x42] ]} |} None).
  vm_compute. reflexivity.
Defined.

(** X3.  After a successful load, take the file table that the loader read
    from the stream, after the identifier and the count.  [Open] finds a name
    exactly when a slot of that table that is not a placeholder carries it: as
    its non-empty manifest name or, with [LoadUnsupported] on, as the name
    made from its index. *)
Theorem openable_names {R : Type} `{ReadSeeker R} (fileMap : list string)
    (LoadUnsupported : bool) (fp : R) (sz : Z) (arch : Archive) :
  OpenArchiveFrom fileMap LoadUnsupported fp sz = Return (Some arch) None →
  ∃ (archiveID : list byte) (fp1 fp2 fp3 : R) (fileTable : list Z),
    Read 4 fp = (archiveID, None, fp1) ∧
    binary_Read 4 fp1 = (inr (Z.of_nat (length fileMap)), fp2) ∧
    readTable (length fileMap) fp2 = (inr fileTable, fp3) ∧
    ∀ file,
      (∃ data, Archive_Open arch file = inr data) ↔
      ∃ (i : nat) (offset : Z),
        fileTable !! i = Some offset ∧
        isPlaceHolder fileTable offset (Z.of_nat i) = Some false ∧
        carries fileMap LoadUnsupported i file.
Proof.
  intros Hload.
  apply OpenArchiveFrom_Return in Hload
    as (archiveID & fp1 & fp2 & fp3 & fp4 & fileTable & Hid & Hnum & Htab & Hslots).
  exists archiveID, fp1, fp2, fp3, fileTable.
  repeat (split; [assumption|]).
  intros file. unfold Archive_Open.
  assert (Hopen : (∃ data, match Files arch !! file with
                           | Some f => inr f
                           | None => inl (errorString "file does not exist")
                           end = (inr data : error + list byte))
                  ↔ is_Some (Files arch !! file)).
  { destruct (Files arch !! file) as [f|]; split.
    - eauto.
    - intros _. eauto.
    - intros [data Hd]. discriminate.
    - intros [f Hf]. discriminate. }
  rewrite Hopen. split.
  - apply (loadSlots_keys fileMap LoadUnsupported fileTable sz [] fileTable
             fp3 fp4 ∅ (Files arch)); [reflexivity|exact Hslots|].
    intros k [v Hv]. by rewrite lookup_empty in Hv.
  - intros (i & offset & Hi & Hp & Hk).
    apply loadSlots_complete in Hslots as [_ Hnew].
    apply (Hnew i offset file Hi); [exact Hp|exact Hk].
Qed.

Lemma openable_names_witness :
  ∃ (archiveID : list byte) (fp1 fp2 fp3 : File) (fileTable : list Z),
    Read 4 (openFile placeholderArchive) = (archiveID, None, fp1) ∧
    binary_Read 4 fp1 = (inr (Z.of_nat (length ["A"%string; "B"%string])), fp2) ∧
    readTable (length ["A"%string; "B"%string]) fp2 = (inr fileTable, fp3) ∧
    ∀ file,
      (∃ data, Archive_Open {| Type_ := "DOS Retail";
                               Files := {[ "B"%string := [x41; x42] ]} |} file
               = inr data) ↔
      ∃ (i : nat) (offset : Z),
        fileTable !! i = Some offset ∧
        isPlaceHolder fileTable offset (Z.of_nat i) = Some false ∧
        carries ["A"%string; "B"%string] false i file.
Proof.
  apply (@openable_names File File_ReadSeeker ["A"%string; "B"%string] false
           (openFile placeholderArchive) 22
           {| Type_ := "DOS Retail"; Files := {[ "B"%string := [x41; x42] ]} |}).
  vm_compute. reflexivity.
Defined.

(** ** Placeholders out of range, and reads from a file *)

(** X4.  [isPlaceHolder] returns, instead of panicking on an index out of
    range, exactly when the offset is one of the two sentinels or the index
    lies between -1 and the last index of the table. *)
Theorem isPlaceHolder_defined (tab : list Z) (offset i : Z) :
  is_Some (isPlaceHolder tab offset i) ↔
  (offset = 0 ∨ offset = 0xFFFFFFFF ∨ -1 ≤ i < Z.of_nat (length tab))%Z.
Proof.
  unfold isPlaceHolder, index.
  destruct (Z.eqb_spec offset 0) as [->|H0]; [split; eauto|].
  destruct (Z.eqb_spec offset 0xFFFFFFFF) as [->|H1]; [split; eauto|].
  cbn [orb].
  destruct (Z.eqb_spec i (Z.of_nat (length tab) - 1)) as [->|Hnl].
  { split; [intros _; right; right; lia|eauto]. }
  destruct (Z.ltb_spec (i + 1) 0) as [Hneg|Hpos]; cbn [mbind option_bind].
  { split; [intros [x Hx]; discriminate|intros [?|[?|?]]; lia]. }
  destruct (tab !! Z.to_nat (i + 1)) as [next|] eqn:Hnext; cbn [mbind option_bind].
  - apply lookup_lt_Some in Hnext.
    split; [intros _; right; right; lia|].
    intros _. destruct (offset =? wrap32 (next - 1))%Z; eauto.
  - apply lookup_ge_None in Hnext.
    split; [intros [x Hx]; discriminate|intros [?|[?|?]]; lia].
Qed.

Lemma isPlaceHolder_defined_witness :
  is_Some (isPlaceHolder [5; 9]%Z 7 2) ↔
  (7 = 0 ∨ 7 = 0xFFFFFFFF ∨ -1 ≤ 2 < Z.of_nat (length [5; 9]%Z))%Z.
Proof. apply (isPlaceHolder_defined [5; 9]%Z 7 2). Defined.

(** *** Reads from a file *)

Lemma File_Read_some n c p :
  0 < n → p < length c →
  Read n {| contents := c; pos := p |}
  = (take n (drop p c), None,
     {| contents := c; pos := p + length (take n (drop p c)) |}).
Proof.
  intros Hn Hp. cbn [Read File_Reader]. unfold File_Read. cbn [contents pos].
  destruct (Nat.eqb_spec n 0); [lia|].
  destruct (Nat.leb_spec (length c) p); [lia|]. reflexivity.
Qed.

Lemma File_Read_end n c p :
  0 < n → length c ≤ p →
  Read n {| contents := c; pos := p |} = ([], Some EOF, {| contents := c; pos := p |}).
Proof.
  intros Hn Hp. cbn [Read File_Reader]. unfold File_Read. cbn [contents pos].
  destruct (Nat.eqb_spec n 0); [lia|].
  destruct (Nat.leb_spec (length c) p); [|lia]. reflexivity.
Qed.

(** [io.ReadFull] on a file: all [n] bytes, or [io.EOF] at the end of the
    file, or [io.ErrUnexpectedEOF] with the bytes that were left. *)
Lemma File_ReadFull n c p :
  0 < n →
  ReadFull n {| contents := c; pos := p |} =
    if decide (length c ≤ p) then ([], Some EOF, {| contents := c; pos := p |})
    else if decide (p + n ≤ length c)
         then (take n (drop p c), None, {| contents := c; pos := p + n |})
         else (drop p c, Some ErrUnexpectedEOF,
               {| contents := c; pos := length c |}).
Proof.
  intros Hn. unfold ReadFull. cbn [ReadAtLeast_loop length].
  destruct (Nat.ltb_spec 0 n) as [_|]; [|lia]. rewrite Nat.sub_0_r.
  destruct (decide (length c ≤ p)) as [Hend|Hin].
  { rewrite File_Read_end by done. cbn [app length].
    destruct (Nat.leb_spec n 0); [lia|]. reflexivity. }
  rewrite File_Read_some by lia. rewrite app_nil_l.
  destruct (decide (p + n ≤ length c)) as [Hfull|Hshort].
  - assert (Hlen : length (take n (drop p c)) = n).
    { rewrite length_take, length_drop. lia. }
    rewrite ReadAtLeast_loop_done by lia. rewrite Hlen.
    destruct (Nat.leb_spec n n); [|lia]. reflexivity.
  - assert (Htake : take n (drop p c) = drop p c).
    { apply take_ge. rewrite length_drop. lia. }
    rewrite Htake.
    assert (Hpos : p + length (drop p c) = length c) by (rewrite length_drop; lia).
    rewrite Hpos.
    assert (Hfuel : ∃ fuel, pending {| contents := c; pos := p |} = S fuel).
    { cbn [pending File_Reader contents pos]. exists (length c - p - 1). lia. }
    destruct Hfuel as [fuel ->]. cbn [ReadAtLeast_loop].
    assert (Hlt : length (drop p c) < n) by (rewrite length_drop; lia).
    destruct (Nat.ltb_spec (length (drop p c)) n); [|lia].
    rewrite File_Read_end by lia. rewrite app_nil_r.
    destruct (Nat.leb_spec n (length (drop p c))); [lia|].
    assert (Hnz : 0 < length (drop p c)) by (rewrite length_drop; lia).
    destruct (Nat.ltb_spec 0 (length (drop p c))); [|lia].
    rewrite bool_decide_eq_true_2 by reflexivity. reflexivity.
Qed.

Lemma File_readByte_next c p b rest :
  drop p c = b :: rest →
  readByte {| contents := c; pos := p |}
  = (b, None, {| contents := c; pos := p + 1 |}).
Proof.
  intros Hdrop.
  assert (Hlt : p < length c).
  { destruct (Nat.lt_ge_cases p (length c)) as [|Hge]; [done|].
    rewrite drop_ge in Hdrop by done. discriminate. }
  unfold readByte. rewrite File_Read_some by lia. by rewrite Hdrop.
Qed.

Lemma File_readByte_ok c p b f' :
  readByte {| contents := c; pos := p |} = (b, None, f') →
  f' = {| contents := c; pos := p + 1 |}.
Proof.
  destruct (drop p c) as [|b' rest] eqn:Hdrop.
  - assert (Hend : length c ≤ p).
    { destruct (Nat.le_gt_cases (length c) p) as [|Hlt]; [done|].
      apply (f_equal length) in Hdrop. rewrite length_drop in Hdrop. simpl in Hdrop. lia. }
    unfold readByte. rewrite File_Read_end by (lia || done). discriminate.
  - rewrite (File_readByte_next c p b' rest Hdrop). congruence.
Qed.

Lemma File_readShort_ok c p v f' :
  readShort {| contents := c; pos := p |} = (v, None, f') →
  f' = {| contents := c; pos := p + 2 |}.
Proof.
  unfold readShort, binary_Read. rewrite (File_ReadFull 2) by lia.
  destruct (decide (length c ≤ p)); [discriminate|].
  destruct (decide (p + 2 ≤ length c)); [|discriminate]. congruence.
Qed.

(** X5.  On a file, [readByte] returns the next byte, or 0 with [io.EOF] at
    the end.  [readShort] returns the next two bytes as a little-endian
    number; it fails with [io.EOF] at the end, and with
    [io.ErrUnexpectedEOF] when one byte is left, which it consumes. *)
Theorem File_readByte_readShort (c : list byte) (p : nat) :
  let f := {| contents := c; pos := p |} in
  match drop p c with
  | [] =>
      readByte f = (x00, Some EOF, f) ∧ readShort f = (0%Z, Some EOF, f)
  | [b] =>
      readByte f = (b, None, {| contents := c; pos := p + 1 |}) ∧
      readShort f = (0%Z, Some ErrUnexpectedEOF, {| contents := c; pos := length c |})
  | lo :: hi :: _ =>
      readByte f = (lo, None, {| contents := c; pos := p + 1 |}) ∧
      readShort f = ((Z.of_N (Byte.to_N lo) + 256 * Z.of_N (Byte.to_N hi))%Z, None,
                     {| contents := c; pos := p + 2 |})
  end.
Proof.
  intros f. unfold f, readByte, readShort, binary_Read.
  rewrite (File_ReadFull 2) by lia.
  destruct (drop p c) as [|lo [|hi rest]] eqn:Hdrop.
  - assert (Hend : length c ≤ p).
    { destruct (Nat.le_gt_cases (length c) p) as [|Hlt]; [done|].
      apply (f_equal length) in Hdrop. rewrite length_drop in Hdrop. simpl in Hdrop. lia. }
    rewrite File_Read_end by (lia || done).
    destruct (decide (length c ≤ p)); [|lia]. done.
  - apply (f_equal length) in Hdrop as Hlen. rewrite length_drop in Hlen. simpl in Hlen.
    rewrite File_Read_some by lia. rewrite Hdrop. cbn [take length].
    destruct (decide (length c ≤ p)); [lia|].
    destruct (decide (p + 2 ≤ length c)); [lia|]. done.
  - apply (f_equal length) in Hdrop as Hlen. rewrite length_drop in Hlen. simpl in Hlen.
    rewrite File_Read_some by lia. rewrite Hdrop. cbn [take length].
    destruct (decide (length c ≤ p)); [lia|].
    destruct (decide (p + 2 ≤ length c)); [|lia].
    split; [done|]. unfold littleEndian. rewrite take_0. cbn [take foldr].
    do 2 f_equal. lia.
Qed.


(** ** Two calls of the decoder *)








(** ** Entries and headers read from a file *)

(** X6.  A raw entry of [size] bytes read from a file at position [p] is
    stored as it is when the file holds [size] more bytes (for [size = 0]
    without a read); the load fails with [io.EOF] when the file ends at [p],
    and ends with neither an archive nor an error when the file holds some
    bytes but fewer than [size]. *)
Theorem rawEntry_File (size len : Z) (fileName : string) (c : list byte)
    (p : nat) (files : gmap string (list byte)) :
  (0 ≤ size)%Z →
  storeEntry false size len fileName {| contents := c; pos := p |} files =
    if decide (size = 0%Z) then
      Next {| contents := c; pos := p |} (<[fileName := []]> files)
    else if decide (length c ≤ p) then Stop (Return None (Some EOF))
    else if decide (p + Z.to_nat size ≤ length c) then
      Next {| contents := c; pos := p + Z.to_nat size |}
           (<[fileName := take (Z.to_nat size) (drop p c)]> files)
    else Stop (Return None None).
Proof.
  intros Hsize. unfold storeEntry. cbn [ReadSeeker_Reader File_ReadSeeker].
  destruct (decide (size = 0%Z)) as [->|Hnz].
  { reflexivity. }
  destruct (decide (length c ≤ p)) as [Hend|Hin].
  { rewrite File_Read_end by lia. cbn [length].
    rewrite bool_decide_eq_true_2 by discriminate.
    by rewrite orb_true_r. }
  rewrite File_Read_some by lia.
  rewrite length_take, length_drop.
  destruct (decide (p + Z.to_nat size ≤ length c)) as [Hfull|Hshort].
  - rewrite Nat.min_l by lia. rewrite Z2Nat.id by lia. rewrite Z.eqb_refl.
    rewrite bool_decide_eq_false_2 by (intros Hn; by apply Hn). reflexivity.
  - rewrite Nat.min_r by lia.
    destruct (Z.eqb_spec (Z.of_nat (length c - p)) size); [lia|]. reflexivity.
Qed.

Lemma rawEntry_File_witness :
  storeEntry false 2 7 "A" {| contents := [x41; x42; x43]; pos := 2 |} ∅ =
    if decide (2 = 0)%Z then
      Next {| contents := [x41; x42; x43]; pos := 2 |} (<["A"%string := []]> ∅)
    else if decide (length [x41; x42; x43] ≤ 2) then Stop (Return None (Some EOF))
    else if decide (2 + Z.to_nat 2 ≤ length [x41; x42; x43]) then
      Next {| contents := [x41; x42; x43]; pos := 2 + Z.to_nat 2 |}
           (<["A"%string := take (Z.to_nat 2) (drop 2 [x41; x42; x43])]> ∅)
    else Stop (Return None None).
Proof. apply (rawEntry_File 2 7 "A" [x41; x42; x43] 2 ∅). lia. Defined.

(** X7.  A DOS archive whose count differs from the length of the manifest
    ends the load with the error "table mapping mismatch", whatever follows
    the count. *)
Theorem table_mapping_mismatch (fileMap : list string) (LoadUnsupported : bool)
    (magic rest : list byte) (n sz : Z) :
  magic = dosRetail ∨ magic = dosShareware →
  (0 ≤ n < 2 ^ 32)%Z →
  n ≠ Z.of_nat (length fileMap) →
  OpenArchiveFrom fileMap LoadUnsupported (openFile (magic ++ le32 n ++ rest)) sz
  = Return None (Some (errorString "table mapping mismatch")).
Proof.
  intros Hmagic Hn Hne. unfold OpenArchiveFrom.
  cbn [ReadSeeker_Reader File_ReadSeeker].
  set (c := magic ++ le32 n ++ rest).
  assert (Hread : Read 4 (openFile c) = (magic, None, {| contents := c; pos := 4 |})).
  { unfold c. by destruct Hmagic as [-> | ->]. }
  rewrite Hread.
  assert (Hvariant : ∃ type, detectVariant (take 4 (magic ++ replicate 4 x00))
                             = (type, None)).
  { destruct Hmagic as [-> | ->]; eexists; reflexivity. }
  destruct Hvariant as [type ->].
  rewrite (File_binary_Read c 4 n rest); [|by destruct Hmagic as [-> | ->]|lia].
  by destruct (Z.eqb_spec n (Z.of_nat (length fileMap))).
Qed.

Lemma table_mapping_mismatch_witness :
  OpenArchiveFrom ["A"%string; "B"%string] false
    (openFile (dosShareware ++ le32 3 ++ [x00; x01])) 10
  = Return None (Some (errorString "table mapping mismatch")).
Proof.
  apply (table_mapping_mismatch ["A"%string; "B"%string] false dosShareware
           [x00; x01] 3 10).
  - by right.
  - lia.
  - simpl. lia.
Defined.

Lemma detectVariant_error archiveID type e :
  detectVariant archiveID = (type, Some e) →
  e = ErrUnsupportedVersion ∨ e = errorString "unknown version".
Proof.
  unfold detectVariant. repeat case_decide; intros [= <- <-]; auto.
Qed.

(** X8.  A file of fewer than eight bytes never loads: the load ends with
    an error, one of [io.EOF], [io.ErrUnexpectedEOF], "unsupported version"
    and "unknown version". *)
Theorem short_file_fails (fileMap : list string) (LoadUnsupported : bool)
    (c : list byte) (sz : Z) :
  length c < 8 →
  ∃ e, OpenArchiveFrom fileMap LoadUnsupported (openFile c) sz = Return None (Some e) ∧
       e ∈ [EOF; ErrUnexpectedEOF; ErrUnsupportedVersion;
            errorString "unknown version"].
Proof.
  intros Hlen. unfold OpenArchiveFrom, openFile.
  cbn [ReadSeeker_Reader File_ReadSeeker].
  destruct (decide (length c ≤ 0)) as [Hempty|Hne].
  { rewrite File_Read_end by lia. exists EOF. split; [reflexivity|set_solver]. }
  rewrite File_Read_some by lia.
  destruct (detectVariant _) as [type [e|]] eqn:Hv.
  { exists e. split; [reflexivity|].
    apply detectVariant_error in Hv as [-> | ->]; set_solver. }
  unfold binary_Read. rewrite File_ReadFull by lia.
  rewrite drop_0, length_take. cbn [Nat.add].
  destruct (decide (length c ≤ 4 `min` length c)).
  { exists EOF. split; [reflexivity|set_solver]. }
  destruct (decide (4 `min` length c + 4 ≤ length c)); [lia|].
  exists ErrUnexpectedEOF. split; [reflexivity|set_solver].
Qed.

Lemma short_file_fails_witness :
  ∃ e, OpenArchiveFrom ["A"%string] false (openFile [x18]) 1 = Return None (Some e) ∧
       e ∈ [EOF; ErrUnexpectedEOF; ErrUnsupportedVersion;
            errorString "unknown version"].
Proof. apply (short_file_fails ["A"%string] false [x18] 1). simpl. lia. Defined.

Lemma readTable_truncated (m : nat) (c : list byte) (p : nat) :
  length c - p < 4 * m →
  ∃ e f', readTable m {| contents := c; pos := p |} = (inl e, f') ∧
          e ∈ [EOF; ErrUnexpectedEOF].
Proof.
  revert p. induction m as [|m IH]; intros p Hshort; [lia|].
  cbn [readTable ReadSeeker_Reader File_ReadSeeker]. unfold binary_Read.
  rewrite File_ReadFull by lia.
  destruct (decide (length c ≤ p)).
  { eexists _, _. split; [reflexivity|set_solver]. }
  destruct (decide (p + 4 ≤ length c)).
  - destruct (IH (p + 4)) as (e & f' & Hrest & He); [lia|].
    cbn [ReadSeeker_Reader File_ReadSeeker] in Hrest. rewrite Hrest.
    eexists _, _. split; [reflexivity|exact He].
  - eexists _, _. split; [reflexivity|set_solver].
Qed.

(** X9.  Offsets written to a file as little-endian 32-bit words are read
    back unchanged by the loop that fills the file table, and the file is
    left right behind them; asking for more offsets than the file holds
    fails with [io.EOF] or [io.ErrUnexpectedEOF]. *)
Theorem readTable_roundtrip (offsets : list Z) (c rest : list byte) (p : nat) :
  Forall (λ v, 0 ≤ v < 2 ^ 32)%Z offsets →
  drop p c = encodeTable offsets ++ rest →
  readTable (length offsets) {| contents := c; pos := p |}
  = (inr offsets, {| contents := c; pos := p + 4 * length offsets |}) ∧
  ∀ m, length rest < 4 * m →
    ∃ e f', readTable (length offsets + m) {| contents := c; pos := p |}
            = (inl e, f') ∧
            e ∈ [EOF; ErrUnexpectedEOF].
Proof.
  intros Hrange Hdrop. split; [by apply (File_readTable offsets c p rest)|].
  intros m Hm. revert p Hdrop.
  induction Hrange as [|v offsets Hv _ IH]; intros p Hdrop.
  - apply readTable_truncated. unfold encodeTable in Hdrop.
    apply (f_equal length) in Hdrop. rewrite length_drop in Hdrop.
    cbn [mbind list_bind app] in Hdrop. lia.
  - unfold encodeTable in Hdrop. rewrite bind_cons, <- app_assoc in Hdrop.
    cbn [length Nat.add readTable ReadSeeker_Reader File_ReadSeeker].
    rewrite (File_binary_Read c p v _ Hdrop Hv).
    destruct (IH (p + 4)) as (e & f' & Hrest & He).
    { rewrite <- drop_drop, Hdrop. reflexivity. }
    cbn [ReadSeeker_Reader File_ReadSeeker] in Hrest. rewrite Hrest.
    eexists _, _. split; [reflexivity|exact He].
Qed.

Lemma readTable_roundtrip_witness :
  readTable (length [16; 21]%Z)
    {| contents := x00 :: encodeTable [16; 21]%Z ++ [x07]; pos := 1 |}
  = (inr [16; 21]%Z,
     {| contents := x00 :: encodeTable [16; 21]%Z ++ [x07];
        pos := 1 + 4 * length [16; 21]%Z |}) ∧
  ∀ m, length [x07] < 4 * m →
    ∃ e f', readTable (length [16; 21]%Z + m)
              {| contents := x00 :: encodeTable [16; 21]%Z ++ [x07]; pos := 1 |}
            = (inl e, f') ∧
            e ∈ [EOF; ErrUnexpectedEOF].
Proof.
  apply (readTable_roundtrip [16; 21]%Z _ [x07] 1).
  - repeat constructor; lia.
  - reflexivity.
Defined.

(** ** The dictionary as a window on the output *)

Lemma window_fresh : window freshDecoder.
Proof.
  split_and!.
  - apply length_replicate.
  - reflexivity.
  - intros k Hk. simpl in Hk. lia.
Qed.

Lemma window_advance k st : window st → window (advance k st).
Proof. auto. Qed.

Lemma window_emit b st : window st → window (emit b st).
Proof.
  intros (Hlen & Hc & Hw). unfold counted in Hc.
  set (w := length (written st)) in *.
  assert (Hidx : Z.to_nat (numWrite st `mod` bufferSize) = w `mod` 4096).
  { rewrite <- Hc. change bufferSize with (Z.of_nat 4096).
    by rewrite <- Nat2Z.inj_mod, Nat2Z.id. }
  pose proof (Nat.mod_upper_bound w 4096 ltac:(lia)) as Hwlt.
  split_and!.
  - cbn [emit buffer]. by rewrite length_insert.
  - by apply counted_emit.
  - intros k Hk1 Hk2. cbn [emit buffer written numWrite] in *. rewrite Hidx.
    rewrite <- Hc in Hk1, Hk2.
    destruct (decide (k = w)) as [->|Hne].
    + rewrite list_lookup_insert_eq by lia.
      symmetry. by apply list_lookup_middle.
    + assert (Hlt : k < w) by lia.
      pose proof (Nat.div_mod_eq k 4096). pose proof (Nat.div_mod_eq w 4096).
      pose proof (Nat.mod_upper_bound k 4096 ltac:(lia)).
      rewrite list_lookup_insert_ne by lia.
      rewrite lookup_app_l by (fold w; lia).
      apply Hw; lia.
Qed.

Lemma window_copyLoop count offset m st :
  window st → window (copyLoop count offset m st).
Proof.
  revert m st. induction count as [|count IH]; intros m st Hst; cbn [copyLoop];
    [exact Hst|].
  apply IH. by apply window_emit.
Qed.

(** X10.  Decoding the bits of a control byte keeps the dictionary a window
    on the output: it has 4096 bytes, the write counter is the length of the
    output, and the byte at position [k] of the output, if among the last
    4096, is in the dictionary at index [k mod 4096]. *)
Theorem bitLoop_window {R : Type} `{Reader R} (n : nat) (fileSize cmask : Z)
    (st st' : decoder) (r r' : R) (err : option error) :
  window st →
  bitLoop n fileSize cmask st r = (st', err, r') →
  window st'.
Proof.
  revert cmask st r. induction n as [|n IH]; intros cmask st r Hst; cbn [bitLoop].
  - by intros [= <- <- <-].
  - destruct (numWrite st =? fileSize)%Z; [by intros [= <- <- <-]|].
    destruct (cmask `mod` 2 =? 1)%Z.
    + destruct (readByte r) as [[b e] r1]. destruct e.
      * intros [= <- <- <-]. by apply window_advance.
      * apply IH. by apply window_emit, window_advance.
    + destruct (readShort r) as [[offset e] r1]. destruct e.
      * intros [= <- <- <-]. by apply window_advance.
      * apply IH. by apply window_copyLoop, window_advance.
Qed.

Lemma bitLoop_window_witness :
  window (emit x42 (advance 1 (emit x41 (advance 1 freshDecoder)))).
Proof.
  apply (bitLoop_window 2 5 3 freshDecoder _ (openFile [x41; x42])
           {| contents := [x41; x42]; pos := 2 |} None).
  - apply window_fresh.
  - reflexivity.
Defined.

Lemma copyLoop_buffer_length count offset m st :
  length (buffer (copyLoop count offset m st)) = length (buffer st).
Proof.
  revert m st. induction count as [|count IH]; intros m st; cbn [copyLoop];
    [done|].
  rewrite IH. cbn [emit buffer]. apply length_insert.
Qed.

Lemma bitLoop_buffer_length {R : Type} `{Reader R} n fileSize cmask st st'
    (r r' : R) err :
  bitLoop n fileSize cmask st r = (st', err, r') →
  length (buffer st') = length (buffer st).
Proof.
  revert cmask st r. induction n as [|n IH]; intros cmask st r; cbn [bitLoop].
  - by intros [= <- _ _].
  - destruct (numWrite st =? fileSize)%Z; [by intros [= <- _ _]|].
    destruct (cmask `mod` 2 =? 1)%Z.
    + destruct (readByte r) as [[b e] r1]. destruct e; [by intros [= <- _ _]|].
      intros Hrun. apply IH in Hrun. rewrite Hrun. cbn [emit advance buffer].
      apply length_insert.
    + destruct (readShort r) as [[offset e] r1]. destruct e; [by intros [= <- _ _]|].
      intros Hrun. apply IH in Hrun. rewrite Hrun.
      apply (copyLoop_buffer_length _ _ _ (advance 2 st)).
Qed.

Lemma decodeLoop_error_length {R : Type} `{Reader R} fuel fileSize dataSize st
    (r r' : R) bs e :
  length (buffer st) = 4096 →
  decodeLoop fuel fileSize dataSize st r = (bs, Some e, r') →
  length bs = 4096.
Proof.
  revert st r. induction fuel as [|fuel IH]; intros st r Hst; cbn [decodeLoop].
  - destruct (numRead st <? dataSize)%Z; discriminate.
  - destruct (numRead st <? dataSize)%Z; [|discriminate].
    destruct (readByte r) as [[cmask e1] r1]. destruct e1.
    { intros [= <- _ _]. exact Hst. }
    destruct (bitLoop 8 fileSize (Z.of_N (to_N cmask)) (advance 1 st) r1)
      as [[st2 e2] r2] eqn:Hbits.
    apply bitLoop_buffer_length in Hbits. cbn [advance buffer] in Hbits.
    destruct e2.
    + intros [= <- _ _]. congruence.
    + apply IH. congruence.
Qed.

(** X12.  When [uncompressData] fails, the slice returned with the error
    has 4096 bytes: it is the dictionary, not the output. *)
Theorem uncompressData_error_length {R : Type} `{Reader R} (r r' : R)
    (fileSize dataSize : Z) (bs : list byte) (e : error) :
  uncompressData r fileSize dataSize = (bs, Some e, r') →
  length bs = 4096.
Proof.
  unfold uncompressData. apply decodeLoop_error_length.
  cbn [freshDecoder buffer]. apply length_replicate.
Qed.

Lemma uncompressData_error_length_witness :
  length (x41 :: replicate 4095 x00) = 4096.
Proof.
  apply (uncompressData_error_length (openFile [xff; x41])
           {| contents := [xff; x41]; pos := 2 |} 8 9 _ EOF).
  vm_compute. reflexivity.
Defined.

(** The bytes a reference appends repeat the output from the referenced
    position on, the appended bytes included. *)
Lemma copyLoop_repeats count (offset m : nat) st :
  window st →
  (numWrite st + Z.of_nat count ≤ 4096)%Z →
  (Z.of_nat (offset + m) < numWrite st)%Z →
  written st `prefix_of` written (copyLoop count (Z.of_nat offset) (Z.of_nat m) st) ∧
  length (written (copyLoop count (Z.of_nat offset) (Z.of_nat m) st))
    = length (written st) + count ∧
  ∀ j, j < count →
    written (copyLoop count (Z.of_nat offset) (Z.of_nat m) st)
      !! (length (written st) + j)
    = written (copyLoop count (Z.of_nat offset) (Z.of_nat m) st)
      !! (offset + m + j).
Proof.
  revert m st. induction count as [|count IH]; intros m st Hst Hroom Hsrc;
    cbn [copyLoop].
  - split_and!; [done|lia|intros j Hj; lia].
  - pose proof Hst as (Hlen & Hc & Hw). unfold counted in Hc.
    assert (Hidx : Z.to_nat ((Z.of_nat offset + Z.of_nat m) `mod` bufferSize)
                   = offset + m).
    { rewrite Z.mod_small by (unfold bufferSize; lia). lia. }
    rewrite Hidx.
    assert (Hk : buffer st !! (offset + m) = written st !! (offset + m)).
    { rewrite <- (Nat.mod_small (offset + m) 4096) at 1 by lia. apply Hw; lia. }
    destruct (written st !! (offset + m)) as [b|] eqn:Hb.
    2: { apply lookup_ge_None in Hb. lia. }
    rewrite (list_lookup_total_correct _ _ _ Hk).
    replace (Z.of_nat m + 1)%Z with (Z.of_nat (S m)) by lia.
    destruct (IH (S m) (emit b st)) as (Hp & Hl & Hj).
    { by apply window_emit. }
    { cbn [emit numWrite]. lia. }
    { cbn [emit numWrite]. lia. }
    cbn [emit written] in Hp, Hl, Hj. rewrite length_app in Hl, Hj. cbn [length] in Hl, Hj.
    set (out' := written (copyLoop count (Z.of_nat offset) (Z.of_nat (S m)) (emit b st))) in *.
    split_and!.
    + etrans; [|exact Hp]. by apply prefix_app_r.
    + lia.
    + intros [|j] Hlt.
      * rewrite !Nat.add_0_r.
        rewrite (prefix_lookup_Some _ _ _ b (list_lookup_middle _ [] b _ eq_refl) Hp).
        symmetry. apply (prefix_lookup_Some (written st ++ [b])); [|exact Hp].
        by apply lookup_app_l_Some.
      * replace (length (written st) + S j) with (length (written st) + 1 + j) by lia.
        replace (offset + m + S j) with (offset + S m + j) by lia.
        apply Hj. lia.
Qed.

(** X11.  While the output fits the dictionary, a reference to a position
    below the write position appends [count] bytes, and the [j]-th of them
    equals the byte at position [offset + j] of the resulting output, so a
    reference that reaches the write position repeats what it has just
    written. *)
Theorem reference_repeats_output (count offset : nat) (st : decoder) :
  window st →
  (numWrite st + Z.of_nat count ≤ 4096)%Z →
  (Z.of_nat offset < numWrite st)%Z →
  written st `prefix_of` written (copyLoop count (Z.of_nat offset) 0 st) ∧
  length (written (copyLoop count (Z.of_nat offset) 0 st))
    = length (written st) + count ∧
  ∀ j, j < count →
    written (copyLoop count (Z.of_nat offset) 0 st) !! (length (written st) + j)
    = written (copyLoop count (Z.of_nat offset) 0 st) !! (offset + j).
Proof.
  intros Hst Hroom Hsrc.
  pose proof (copyLoop_repeats count offset 0 st Hst Hroom ltac:(lia)) as Hcopy.
  rewrite Nat.add_0_r in Hcopy. exact Hcopy.
Qed.

Lemma reference_repeats_output_witness :
  written (emit x42 (emit x41 freshDecoder))
    `prefix_of` [x41; x42; x41; x42; x41] ∧
  length [x41; x42; x41; x42; x41]
    = length (written (emit x42 (emit x41 freshDecoder))) + 3 ∧
  ∀ j, j < 3 →
    [x41; x42; x41; x42; x41]
      !! (length (written (emit x42 (emit x41 freshDecoder))) + j)
    = [x41; x42; x41; x42; x41] !! (0 + j).
Proof.
  apply (reference_repeats_output 3 0 (emit x42 (emit x41 freshDecoder))).
  - apply window_emit, window_emit, window_fresh.
  - simpl. lia.
  - simpl. lia.
Defined.

(** ** Bounds on what a run reads and writes *)

Section Amounts.
Local Open Scope Z_scope.

(** *** How much a run reads and writes *)

Lemma File_Bounded : Bounded File.
Proof.
  intros n [c p]. cbn [Read File_Reader]. unfold File_Read. cbn [contents pos].
  destruct (n =? 0)%nat; [simpl; lia|].
  destruct (length c <=? p)%nat; [simpl; lia|].
  cbn [fst]. rewrite length_take. lia.
Qed.

Lemma littleEndian_bound bs : 0 ≤ littleEndian bs < 256 ^ Z.of_nat (length bs).
Proof.
  induction bs as [|b bs IH]; [simpl; lia|].
  cbn [littleEndian foldr length]. fold (littleEndian bs).
  rewrite Nat2Z.inj_succ, Z.pow_succ_r by lia.
  pose proof (Byte.to_N_bounded b). lia.
Qed.

Section Bounds.
Context {R : Type} `{Reader R}.
Hypothesis HB : Bounded R.

Lemma ReadAtLeast_loop_length fuel min buf (r : R) :
  (length buf ≤ min)%nat →
  (length (ReadAtLeast_loop fuel min buf r).1.1 ≤ min)%nat.
Proof.
  revert buf r. induction fuel as [|fuel IH]; intros buf r Hlen; cbn [ReadAtLeast_loop].
  - destruct (length buf <? min)%nat; exact Hlen.
  - destruct (Nat.ltb_spec (length buf) min); [|exact Hlen].
    pose proof (HB (min - length buf)%nat r) as Hb.
    destruct (Read (min - length buf) r) as [[bs e] r1]. cbn [fst] in Hb.
    assert (Hsum : (length (buf ++ bs) ≤ min)%nat) by (rewrite length_app; lia).
    destruct e; [exact Hsum|]. by apply IH.
Qed.

Lemma ReadAtLeast_loop_enough fuel min buf (r r' : R) buf' :
  ReadAtLeast_loop fuel min buf r = (buf', None, r') → (min ≤ length buf')%nat.
Proof.
  revert buf r. induction fuel as [|fuel IH]; intros buf r; cbn [ReadAtLeast_loop].
  - destruct (Nat.ltb_spec (length buf) min); [discriminate|]. by intros [= <- _].
  - destruct (Nat.ltb_spec (length buf) min); [|by intros [= <- _]].
    destruct (Read (min - length buf) r) as [[bs e] r1].
    destruct e; [discriminate|]. apply IH.
Qed.

Lemma ReadFull_length n (r r' : R) bs :
  ReadFull n r = (bs, None, r') → length bs = n.
Proof.
  unfold ReadFull.
  pose proof (ReadAtLeast_loop_length (S (pending r)) n [] r ltac:(simpl; lia)) as Hlen.
  destruct (ReadAtLeast_loop (S (pending r)) n [] r) as [[buf e] r1] eqn:Hloop.
  cbn [fst] in Hlen.
  destruct (Nat.leb_spec n (length buf)) as [Hge|Hlt].
  - intros [= <- _]. lia.
  - destruct ((0 <? length buf)%nat && bool_decide (e = Some EOF)); [discriminate|].
    intros [= <- -> _]. apply ReadAtLeast_loop_enough in Hloop. lia.
Qed.

Lemma readShort_range (r r' : R) v :
  readShort r = (v, None, r') → 0 ≤ v < 65536.
Proof.
  unfold readShort, binary_Read.
  destruct (ReadFull 2 r) as [[bs e] r1] eqn:Hfull.
  destruct e; [discriminate|]. intros [= <- _].
  apply ReadFull_length in Hfull.
  pose proof (littleEndian_bound bs) as Hb. by rewrite Hfull in Hb.
Qed.

Lemma bitLoop_output n fileSize cmask st (r r' : R) st' err :
  bitLoop n fileSize cmask st r = (st', err, r') →
  numWrite st ≤ numWrite st' ≤ numWrite st + 18 * Z.of_nat n ∧
  numRead st ≤ numRead st' ≤ numRead st + 2 * Z.of_nat n.
Proof.
  revert cmask st r. induction n as [|n IH]; intros cmask st r; cbn [bitLoop].
  - intros [= <- _ _]. lia.
  - destruct (numWrite st =? fileSize); [intros [= <- _ _]; lia|].
    destruct (cmask `mod` 2 =? 1).
    + destruct (readByte r) as [[b e] r1]. destruct e.
      * intros [= <- _ _]. cbn [advance numWrite numRead]. lia.
      * intros Hrun. apply IH in Hrun. cbn [emit advance numWrite numRead] in Hrun. lia.
    + destruct (readShort r) as [[offset e] r1] eqn:Hshort. destruct e.
      * intros [= <- _ _]. cbn [advance numWrite numRead]. lia.
      * intros Hrun. apply IH in Hrun. apply readShort_range in Hshort.
        destruct (copyLoop_spec (Z.to_nat (offset `div` bufferSize + 3))
                    (offset `mod` bufferSize) 0 (advance 2 st)) as (_ & Hw & Hr & _).
        rewrite Hw, Hr in Hrun. cbn [advance numWrite numRead] in Hrun.
        assert (0 ≤ offset `div` bufferSize ≤ 15).
        { unfold bufferSize. split; [apply Z.div_pos; lia|].
          apply Z.lt_succ_r, Z.div_lt_upper_bound; lia. }
        lia.
Qed.

Lemma decodeLoop_output fuel fileSize dataSize st (r r' : R) out :
  counted st →
  decodeLoop fuel fileSize dataSize st r = (out, None, r') →
  Z.of_nat (length out) ≤ numWrite st + 144 * Z.max 0 (dataSize - numRead st).
Proof.
  revert st r. induction fuel as [|fuel IH]; intros st r Hst; cbn [decodeLoop].
  - destruct (numRead st <? dataSize); intros [= <- _]; rewrite Hst; lia.
  - destruct (Z.ltb_spec (numRead st) dataSize); [|intros [= <- _]; rewrite Hst; lia].
    destruct (readByte r) as [[cmask e] r1]. destruct e; [discriminate|].
    destruct (bitLoop 8 fileSize (Z.of_N (to_N cmask)) (advance 1 st) r1)
      as [[st2 e2] r2] eqn:Hbits.
    destruct e2; [discriminate|]. intros Hrun.
    pose proof (bitLoop_grows _ _ _ _ _ _ _ _ Hbits) as (_ & _ & Hc).
    apply bitLoop_output in Hbits. cbn [advance numWrite numRead] in Hbits.
    apply IH in Hrun; [|by apply Hc]. lia.
Qed.

End Bounds.

(** X13.  For a source that keeps the contract of [io.Reader], a
    successful run returns at most 144 bytes for each byte of the budget, and
    none when the budget is not positive. *)
Theorem uncompressData_output_bound {R : Type} `{Reader R} (r r' : R)
    (fileSize dataSize : Z) (out : list byte) :
  Bounded R →
  uncompressData r fileSize dataSize = (out, None, r') →
  Z.of_nat (length out) ≤ 144 * Z.max 0 dataSize.
Proof.
  intros HB Hrun.
  apply (decodeLoop_output HB) in Hrun; [|apply counted_fresh].
  cbn [freshDecoder numWrite numRead] in Hrun. by rewrite Z.sub_0_r in Hrun.
Qed.

Lemma uncompressData_output_bound_witness :
  Z.of_nat (length (replicate 24 x00)) ≤ 144 * Z.max 0 17.
Proof.
  apply (uncompressData_output_bound (openFile eightReferences)
           {| contents := eightReferences; pos := 17 |} 22 17).
  - apply File_Bounded.
  - vm_compute. reflexivity.
Defined.

(** *** How far a run moves a file *)

Lemma bitLoop_File n fileSize cmask st st' (f f' : File) :
  bitLoop n fileSize cmask st f = (st', None, f') →
  contents f' = contents f ∧
  Z.of_nat (pos f') = Z.of_nat (pos f) + (numRead st' - numRead st).
Proof.
  revert cmask st f. induction n as [|n IH]; intros cmask st [c p]; cbn [bitLoop].
  - intros [= <- <-]. split; [done|lia].
  - destruct (numWrite st =? fileSize); [intros [= <- <-]; split; [done|lia]|].
    destruct (cmask `mod` 2 =? 1).
    + destruct (readByte _) as [[b e] f1] eqn:Hbyte. destruct e; [discriminate|].
      apply File_readByte_ok in Hbyte as ->.
      intros Hrun. apply IH in Hrun as [-> ->].
      cbn [contents pos emit advance numRead]. split; [done|lia].
    + destruct (readShort _) as [[offset e] f1] eqn:Hshort. destruct e; [discriminate|].
      apply File_readShort_ok in Hshort as ->.
      intros Hrun. apply IH in Hrun as [-> ->].
      destruct (copyLoop_spec (Z.to_nat (offset `div` bufferSize + 3))
                  (offset `mod` bufferSize) 0 (advance 2 st)) as (_ & _ & Hr & _).
      rewrite Hr. cbn [contents pos advance numRead]. split; [done|lia].
Qed.

Lemma decodeLoop_File fuel fileSize dataSize st (f f' : File) out :
  (Z.to_nat (dataSize - numRead st) ≤ fuel)%nat →
  decodeLoop fuel fileSize dataSize st f = (out, None, f') →
  contents f' = contents f ∧
  ∃ final,
    Z.of_nat (pos f') = Z.of_nat (pos f) + (final - numRead st) ∧
    dataSize ≤ final ∧
    (dataSize ≤ numRead st → final = numRead st) ∧
    (numRead st < dataSize → final ≤ dataSize + 16).
Proof.
  revert st f. induction fuel as [|fuel IH]; intros st [c p] Hfuel; cbn [decodeLoop].
  - destruct (Z.ltb_spec (numRead st) dataSize); [lia|].
    intros [= _ <-]. split; [done|]. exists (numRead st). lia.
  - destruct (Z.ltb_spec (numRead st) dataSize) as [Hlt|Hge].
    2: { intros [= _ <-]. split; [done|]. exists (numRead st). lia. }
    destruct (readByte _) as [[cmask e] f1] eqn:Hbyte. destruct e; [discriminate|].
    apply File_readByte_ok in Hbyte as ->.
    destruct (bitLoop 8 fileSize (Z.of_N (to_N cmask)) (advance 1 st) _)
      as [[st2 e2] f2] eqn:Hbits.
    destruct e2; [discriminate|]. intros Hrun.
    pose proof (bitLoop_output File_Bounded _ _ _ _ _ _ _ _ Hbits) as [_ Hread].
    apply bitLoop_File in Hbits as [Hc Hp].
    cbn [contents pos advance numRead] in Hc, Hp, Hread.
    apply IH in Hrun as (Hc' & final & Hp' & Hds & Hstop & Hover); [|lia].
    split; [by rewrite Hc', Hc|]. exists final. cbn [pos]. split_and!; [lia|lia|lia|].
    intros _. destruct (Z.lt_ge_cases (numRead st2) dataSize); lia.
Qed.

(** X14.  A successful run on a file leaves the contents alone and moves
    the position by at least [dataSize] and at most [dataSize + 16] bytes,
    and not at all when [dataSize] is not positive. *)
Theorem uncompressData_File_consumed (f f' : File) (fileSize dataSize : Z)
    (out : list byte) :
  uncompressData f fileSize dataSize = (out, None, f') →
  contents f' = contents f ∧
  (dataSize ≤ 0 → pos f' = pos f) ∧
  (0 < dataSize →
   dataSize ≤ Z.of_nat (pos f') - Z.of_nat (pos f) ≤ dataSize + 16).
Proof.
  intros Hrun. apply decodeLoop_File in Hrun as (Hc & final & Hp & Hds & Hstop & Hover).
  - cbn [freshDecoder numRead] in *. split_and!; [done|intros; lia|intros; lia].
  - cbn [freshDecoder numRead]. lia.
Qed.

Lemma uncompressData_File_consumed_witness :
  contents {| contents := sixteenLiterals; pos := 18 |} = contents (openFile sixteenLiterals) ∧
  (10 ≤ 0 → pos {| contents := sixteenLiterals; pos := 18 |} = pos (openFile sixteenLiterals)) ∧
  (0 < 10 →
   10 ≤ Z.of_nat (pos {| contents := sixteenLiterals; pos := 18 |})
        - Z.of_nat (pos (openFile sixteenLiterals)) ≤ 10 + 16).
Proof.
  apply (uncompressData_File_consumed (openFile sixteenLiterals) _ 16 10
           [x41; x42; x43; x44; x45; x46; x47; x48;
            x49; x4a; x4b; x4c; x4d; x4e; x4f; x50]).
  vm_compute. reflexivity.
Defined.

End Amounts.

(** ** Payloads of literals *)

Section Literals.
Local Open Scope Z_scope.

Lemma emitAll_spec lits st :
  written (emitAll lits st) = written st ++ lits ∧
  numWrite (emitAll lits st) = numWrite st + Z.of_nat (length lits) ∧
  numRead (emitAll lits st) = numRead st + Z.of_nat (length lits).
Proof.
  unfold emitAll. revert st. induction lits as [|b lits IH]; intros st; cbn [foldl].
  - rewrite app_nil_r. cbn [length]. split_and!; [done|lia|lia].
  - destruct (IH (emit b (advance 1 st))) as (-> & -> & ->).
    cbn [emit advance written numWrite numRead length].
    rewrite <- app_assoc. split_and!; [done|lia|lia].
Qed.

Lemma drop_next {A} (l : list A) p x rest :
  drop p l = x :: rest → drop (p + 1) l = rest.
Proof. intros Hd. by rewrite <- drop_drop, Hd. Qed.

Lemma ones_succ n :
  (2 ^ Z.of_nat (S n) - 1) `mod` 2 = 1 ∧
  (2 ^ Z.of_nat (S n) - 1) `div` 2 = 2 ^ Z.of_nat n - 1.
Proof.
  rewrite Nat2Z.inj_succ, Z.pow_succ_r by lia.
  pose proof (Z.pow_pos_nonneg 2 (Z.of_nat n) ltac:(lia) ltac:(lia)).
  replace (2 * 2 ^ Z.of_nat n - 1) with (1 + (2 ^ Z.of_nat n - 1) * 2) by lia.
  rewrite Z.mod_add, Z.div_add by lia. split; reflexivity.
Qed.

(** The bits of a control byte whose [n] low bits are set, over [lits]. *)
Lemma bitLoop_literals n fileSize lits st c p rest :
  drop p c = lits ++ rest →
  (length lits ≤ n)%nat →
  (∀ j, 0 ≤ j < Z.of_nat (length lits) → numWrite st + j ≠ fileSize) →
  ((length lits < n)%nat → numWrite st + Z.of_nat (length lits) = fileSize) →
  bitLoop n fileSize (2 ^ Z.of_nat n - 1) st {| contents := c; pos := p |}
  = (emitAll lits st, None, {| contents := c; pos := (p + length lits)%nat |}).
Proof.
  revert lits st p. induction n as [|n IH]; intros lits st p Hdrop Hlen Hbelow Hat.
  - destruct lits; [|simpl in Hlen; lia]. cbn [bitLoop length emitAll foldl].
    by rewrite Nat.add_0_r.
  - destruct lits as [|b lits].
    + rewrite bitLoop_at_target by (cbn [length] in Hat; lia).
      cbn [length emitAll foldl]. by rewrite Nat.add_0_r.
    + cbn [bitLoop]. cbn [length] in *.
      destruct (Z.eqb_spec (numWrite st) fileSize) as [Heq|_].
      { exfalso. apply (Hbelow 0); lia. }
      destruct (ones_succ n) as [-> ->]. cbn [Z.eqb Pos.eqb].
      rewrite (File_readByte_next c p b (lits ++ rest) Hdrop).
      rewrite (IH lits (emit b (advance 1 st)) (p + 1)%nat).
      * do 2 f_equal. lia.
      * by apply drop_next in Hdrop.
      * lia.
      * intros j Hj. cbn [emit advance numWrite].
        specialize (Hbelow (j + 1)). lia.
      * intros Hlt. cbn [emit advance numWrite]. lia.
Qed.

Lemma decodeLoop_literals chunks fuel fileSize dataSize st c p rest :
  wellChunked chunks →
  drop p c = storeChunks chunks ++ rest →
  fileSize = numWrite st + Z.of_nat (length (concat chunks)) →
  dataSize = numRead st + Z.of_nat (length (storeChunks chunks)) →
  (length (storeChunks chunks) ≤ fuel)%nat →
  decodeLoop fuel fileSize dataSize st {| contents := c; pos := p |}
  = (written st ++ concat chunks, None,
     {| contents := c; pos := (p + length (storeChunks chunks))%nat |}).
Proof.
  revert fuel st p. induction chunks as [|chunk chunks IH];
    intros fuel st p Hwell Hdrop Hfs Hds Hfuel.
  - cbn [storeChunks concat length] in *.
    rewrite app_nil_r, Nat.add_0_r.
    destruct fuel; cbn [decodeLoop];
      destruct (Z.ltb_spec (numRead st) dataSize); (lia || reflexivity).
  - destruct Hwell as (Hle & Hfull & Hwell).
    cbn [storeChunks concat] in *. cbn [length] in Hds, Hfuel.
    rewrite length_app in Hfs, Hds, Hfuel.
    destruct fuel as [|fuel]; [lia|]. cbn [decodeLoop].
    destruct (Z.ltb_spec (numRead st) dataSize); [|lia].
    cbn [app] in Hdrop. rewrite <- app_assoc in Hdrop.
    rewrite (File_readByte_next c p xff _ Hdrop).
    change (Z.of_N (to_N xff)) with (2 ^ Z.of_nat 8 - 1).
    apply drop_next in Hdrop.
    rewrite (bitLoop_literals 8 fileSize chunk (advance 1 st) c (p + 1)
               (storeChunks chunks ++ rest) Hdrop Hle).
    + destruct (emitAll_spec chunk (advance 1 st)) as (Hw & Hnw & Hnr).
      cbn [advance written numWrite numRead] in Hw, Hnw, Hnr.
      rewrite (IH fuel (emitAll chunk (advance 1 st)) (p + 1 + length chunk)%nat).
      * rewrite Hw, <- app_assoc. do 2 f_equal.
        cbn [length]. rewrite length_app. lia.
      * exact Hwell.
      * by rewrite <- drop_drop, Hdrop, drop_app_length.
      * lia.
      * lia.
      * lia.
    + intros j Hj. cbn [advance numWrite]. lia.
    + intros Hlt. cbn [advance numWrite].
      destruct chunks as [|chunk' chunks]; [cbn [concat length] in *; lia|].
      specialize (Hfull ltac:(done)). lia.
Qed.

(** X15.  A payload of literals (chunks of eight bytes, the last of at
    most eight, each behind a control byte [0xFF]) decodes to the bytes of
    the chunks, the target being their number and the budget the length of
    the payload. *)
Theorem uncompressData_literals (chunks : list (list byte)) :
  wellChunked chunks →
  uncompressData (openFile (storeChunks chunks))
    (Z.of_nat (length (concat chunks))) (Z.of_nat (length (storeChunks chunks)))
  = (concat chunks, None,
     {| contents := storeChunks chunks; pos := length (storeChunks chunks) |}).
Proof.
  intros Hwell. unfold uncompressData, openFile.
  rewrite (decodeLoop_literals chunks _ _ _ _ _ _ []); try done.
  - by rewrite app_nil_r.
  - cbn [freshDecoder numRead]. lia.
Qed.

Lemma uncompressData_literals_witness :
  uncompressData
    (openFile (storeChunks [[x41; x42; x43; x44; x45; x46; x47; x48]; [x49; x4a]]))
    (Z.of_nat (length (concat [[x41; x42; x43; x44; x45; x46; x47; x48]; [x49; x4a]])))
    (Z.of_nat (length (storeChunks [[x41; x42; x43; x44; x45; x46; x47; x48]; [x49; x4a]])))
  = (concat [[x41; x42; x43; x44; x45; x46; x47; x48]; [x49; x4a]], None,
     {| contents := storeChunks [[x41; x42; x43; x44; x45; x46; x47; x48]; [x49; x4a]];
        pos := length (storeChunks [[x41; x42; x43; x44; x45; x46; x47; x48]; [x49; x4a]]) |}).
Proof.
  apply (uncompressData_literals [[x41; x42; x43; x44; x45; x46; x47; x48]; [x49; x4a]]).
  simpl. repeat split; (lia || done).
Defined.

End Literals.

(** ** Archives of raw entries *)

Lemma headerWord_raw h :
  (0 ≤ h < 2 ^ 24)%Z → headerCompressed h = false ∧ headerSize h = h.
Proof.
  intros Hh. unfold headerCompressed, headerSize. split.
  - rewrite Z.shiftr_div_pow2, Z.div_small by lia. reflexivity.
  - change 0x00FFFFFF%Z with (Z.ones 24). rewrite Z.land_ones by lia.
    by apply Z.mod_small.
Qed.

Lemma length_layout p entries : length (layout p entries) = length entries.
Proof.
  revert p. induction entries as [|e entries IH]; intros p; cbn [layout length];
    [done|]. by rewrite IH.
Qed.

Lemma layout_range p entries :
  (Z.of_nat (p + length (rawEntries entries)) < 2 ^ 32)%Z →
  Forall (λ v, 0 ≤ v < 2 ^ 32)%Z (layout p entries).
Proof.
  revert p. induction entries as [|e entries IH]; intros p Hend;
    cbn [layout rawEntries] in *; constructor.
  - lia.
  - apply IH. rewrite !length_app, length_le32 in Hend. lia.
Qed.

(** A raw entry whose bytes are all in the file. *)
Lemma storeEntry_raw_ok (len : Z) (fileName : string) (c : list byte) (p : nat)
    (data rest : list byte) (files : gmap string (list byte)) :
  drop p c = data ++ rest →
  storeEntry false (Z.of_nat (length data)) len fileName
    {| contents := c; pos := p |} files
  = Next {| contents := c; pos := p + length data |} (<[fileName := data]> files).
Proof.
  intros Hdrop. unfold storeEntry. cbn [ReadSeeker_Reader File_ReadSeeker].
  rewrite Nat2Z.id. destruct data as [|b data].
  - cbn [length]. by rewrite Nat.add_0_r.
  - assert (Hlt : p < length c).
    { destruct (Nat.lt_ge_cases p (length c)) as [|Hge]; [done|].
      rewrite drop_ge in Hdrop by done. discriminate. }
    rewrite File_Read_some by (cbn [length]; lia).
    rewrite Hdrop, take_app_length, Z.eqb_refl.
    rewrite bool_decide_eq_false_2 by (intros Hn; by apply Hn). reflexivity.
Qed.

Section RawEntries.
Variable fileMap : list string.
Variable LoadUnsupported : bool.
Variable c : list byte.
Variable sz : Z.

Lemma loadSlots_raw entries :
  ∀ (done : list Z) (names : list string) (p q : nat)
    (files : gmap string (list byte)),
    fileMap = names ++ entries.*1 →
    length names = length done →
    drop p c = rawEntries entries →
    Forall (λ e, e.1 ≠ ""%string ∧ (Z.of_nat (length e.2) < 2 ^ 24)%Z) entries →
    0 < p →
    (Z.of_nat (p + length (rawEntries entries)) < 2 ^ 32 - 1)%Z →
    ∃ q',
      loadSlots fileMap LoadUnsupported (done ++ layout p entries) sz
        (length done) (layout p entries) {| contents := c; pos := q |} files
      = Next {| contents := c; pos := q' |} (storeAll entries files).
Proof.
  induction entries as [|[name data] entries IH];
    intros done names p q files Hmap Hnames Hdrop Hok Hpos Hend.
  { exists q. reflexivity. }
  apply Forall_cons in Hok as [[Hname Hsize] Hok]. cbn [fst snd] in *.
  cbn [layout rawEntries loadSlots fst snd] in *.
  rewrite !length_app, length_le32 in Hend.
  set (tab := done ++ Z.of_nat p :: layout (p + 4 + length data) entries).
  assert (Hi : tab !! length done = Some (Z.of_nat p)).
  { unfold tab. by apply list_lookup_middle. }
  assert (Hplace : isPlaceHolder tab (Z.of_nat p) (Z.of_nat (length done)) = Some false).
  { apply isPlaceHolder_gap; [exact Hi|lia|lia|].
    intros next Hnext. unfold tab in Hnext.
    rewrite lookup_app_r in Hnext by lia.
    replace (length done + 1 - length done) with 1 in Hnext by lia.
    destruct entries as [|e entries]; [discriminate|].
    cbn [layout lookup list_lookup] in Hnext. injection Hnext as <-.
    rewrite wrap32_small by lia. lia. }
  destruct (dataLength_defined tab sz (length done) _ Hi) as [len Hlen].
  assert (Hseek : Seek (Z.of_nat p) {| contents := c; pos := q |}
                  = (None, {| contents := c; pos := p |})).
  { cbn [Seek File_ReadSeeker]. unfold File_Seek.
    destruct (Z.ltb_spec (Z.of_nat p) 0); [lia|]. cbn [contents].
    by rewrite Nat2Z.id. }
  assert (Hhead : binary_Read 4 {| contents := c; pos := p |}
                  = (inr (Z.of_nat (length data)), {| contents := c; pos := p + 4 |})).
  { apply (File_binary_Read c p (Z.of_nat (length data)) (data ++ rawEntries entries));
      [exact Hdrop|lia]. }
  assert (Hfile : fileMap !! length done = Some name).
  { rewrite Hmap, <- Hnames. by apply list_lookup_middle. }
  rewrite (loadSlot_present fileMap LoadUnsupported tab sz (length done) (Z.of_nat p)
             _ _ _ _ len name files Hplace Hseek Hhead Hlen Hfile).
  rewrite bool_decide_eq_false_2 by done.
  destruct (headerWord_raw (Z.of_nat (length data)) ltac:(lia)) as [-> ->].
  assert (Hrest : drop (p + 4) c = data ++ rawEntries entries).
  { rewrite <- drop_drop, Hdrop.
    by rewrite (drop_app_length' _ _ 4 (eq_sym (length_le32 (Z.of_nat (length data))))). }
  assert (Hlenc : p + 4 + length data + length (rawEntries entries) = length c).
  { apply (f_equal length) in Hrest.
    rewrite length_drop, length_app in Hrest.
    assert (p + 4 ≤ length c ∨ length c < p + 4) as [|Hshort] by lia; [lia|].
    apply (f_equal length) in Hdrop.
    rewrite length_drop, !length_app, length_le32 in Hdrop. lia. }
  assert (Hnext : ∃ q',
    loadSlots fileMap LoadUnsupported tab sz (S (length done))
      (layout (p + 4 + length data) entries)
      {| contents := c; pos := p + 4 + length data |} (<[name := data]> files)
    = Next {| contents := c; pos := q' |} (storeAll entries (<[name := data]> files))).
  { replace tab with ((done ++ [Z.of_nat p]) ++ layout (p + 4 + length data) entries)
      by (unfold tab; by rewrite <- app_assoc).
    replace (S (length done)) with (length (done ++ [Z.of_nat p]))
      by (rewrite length_app; simpl; lia).
    apply (IH _ (names ++ [name])).
    - by rewrite <- app_assoc.
    - rewrite !length_app. simpl. lia.
    - rewrite <- Nat.add_assoc, <- drop_drop, Hdrop, app_assoc.
      apply drop_app_length'. rewrite length_app, length_le32. lia.
    - exact Hok.
    - lia.
    - lia. }
  rewrite (storeEntry_raw_ok len name c (p + 4) data (rawEntries entries) files Hrest).
  exact Hnext.
Qed.

End RawEntries.

Lemma rawArchive_load (entries : list (string * list byte))
    (LoadUnsupported : bool) (sz : Z) :
  Forall (λ e, e.1 ≠ ""%string ∧ (Z.of_nat (length e.2) < 2 ^ 24)%Z) entries →
  (Z.of_nat (length (rawArchive entries)) < 2 ^ 32 - 1)%Z →
  OpenArchiveFrom entries.*1 LoadUnsupported (openFile (rawArchive entries)) sz
  = Return (Some {| Type_ := "DOS Retail"; Files := storeAll entries ∅ |}) None.
Proof.
  intros Hok Hsmall.
  set (n := length entries). set (tab := layout (8 + 4 * n) entries).
  set (c := rawArchive entries).
  assert (Hc : c = (dosRetail ++ le32 (Z.of_nat n) ++ encodeTable tab)
                     ++ rawEntries entries).
  { unfold c, rawArchive. fold n. fold tab. by rewrite <- !app_assoc. }
  assert (Htablen : length tab = n) by apply length_layout.
  assert (Hprefix : length (dosRetail ++ le32 (Z.of_nat n) ++ encodeTable tab)
                    = 8 + 4 * n).
  { rewrite !length_app, length_encodeTable, Htablen. simpl. lia. }
  assert (Hlenc : length c = 8 + 4 * n + length (rawEntries entries)).
  { by rewrite Hc, length_app, Hprefix. }
  fold c in Hsmall. rewrite Hlenc in Hsmall.
  assert (Hrange : Forall (λ v, 0 ≤ v < 2 ^ 32)%Z tab).
  { apply layout_range. lia. }
  assert (Hbody : drop (8 + 4 * n) c = rawEntries entries).
  { rewrite Hc. by apply drop_app_length'. }
  unfold OpenArchiveFrom. cbn [ReadSeeker_Reader File_ReadSeeker].
  assert (Hread : Read 4 (openFile c) = (dosRetail, None, {| contents := c; pos := 4 |}))
    by reflexivity.
  rewrite Hread.
  change (detectVariant (take 4 (dosRetail ++ replicate 4 x00)))
    with ("DOS Retail"%string, @None error).
  rewrite (File_binary_Read c 4 (Z.of_nat n) (encodeTable tab ++ rawEntries entries));
    [|reflexivity|lia].
  rewrite length_fmap. fold n. rewrite Z.eqb_refl. cbn [negb]. rewrite Nat2Z.id.
  change (4 + 4) with 8. rewrite <- Htablen at 1.
  rewrite (File_readTable tab c 8 (rawEntries entries) Hrange); [|reflexivity].
  rewrite Htablen.
  destruct (loadSlots_raw entries.*1 LoadUnsupported c sz entries [] []
              (8 + 4 * n) (8 + 4 * n) ∅) as [q' Hslots]; try done; [lia..|].
  cbn [app length] in Hslots. fold tab in Hslots. by rewrite Hslots.
Qed.

(** ** Opening what was loaded *)

Lemma storeAll_lookup_notin entries files (name : string) :
  name ∉ entries.*1 → storeAll entries files !! name = files !! name.
Proof.
  unfold storeAll. revert files. induction entries as [|[n d] entries IH];
    intros files Hnot; cbn [foldl fst snd]; [done|].
  rewrite fmap_cons in Hnot. cbn [fst] in Hnot.
  apply not_elem_of_cons in Hnot as [Hne Hnot].
  rewrite IH by done. by rewrite lookup_insert_ne.
Qed.

Lemma storeAll_lookup_in entries files (name : string) data :
  NoDup entries.*1 → (name, data) ∈ entries →
  storeAll entries files !! name = Some data.
Proof.
  revert files. induction entries as [|[n d] entries IH]; intros files Hnd Hin.
  { by apply elem_of_nil in Hin. }
  rewrite fmap_cons in Hnd. cbn [fst] in Hnd. apply NoDup_cons in Hnd as [Hfresh Hnd].
  change (storeAll ((n, d) :: entries) files) with (storeAll entries (<[n := d]> files)).
  apply elem_of_cons in Hin as [[= -> ->]|Hin].
  - rewrite storeAll_lookup_notin by done. apply lookup_insert_eq.
  - by apply IH.
Qed.

(** X16.  Loading a DOS retail archive of raw entries with non-empty names
    gives the entries back: the map is the result of storing them in order.
    [Open] then fails with [os.ErrNotExist] for every name that is not the
    name of an entry and, when the names are distinct, returns the bytes of
    each entry under its name. *)
Theorem rawArchive_roundtrip (entries : list (string * list byte))
    (LoadUnsupported : bool) (sz : Z) :
  Forall (λ e, e.1 ≠ ""%string ∧ (Z.of_nat (length e.2) < 2 ^ 24)%Z) entries →
  (Z.of_nat (length (rawArchive entries)) < 2 ^ 32 - 1)%Z →
  let arch := {| Type_ := "DOS Retail"; Files := storeAll entries ∅ |} in
  OpenArchiveFrom entries.*1 LoadUnsupported (openFile (rawArchive entries)) sz
  = Return (Some arch) None ∧
  (∀ name, name ∉ entries.*1 →
     Archive_Open arch name = inl (errorString "file does not exist")) ∧
  (NoDup entries.*1 →
   ∀ name data, (name, data) ∈ entries → Archive_Open arch name = inr data).
Proof.
  intros Hok Hsmall arch. split; [by apply rawArchive_load|]. split.
  - intros name Hnot. unfold Archive_Open, arch. cbn [Files].
    by rewrite storeAll_lookup_notin, lookup_empty.
  - intros Hnd name data Hin. unfold Archive_Open, arch. cbn [Files].
    by rewrite (storeAll_lookup_in entries ∅ name data Hnd Hin).
Qed.

Lemma rawArchive_roundtrip_witness :
  let arch := {| Type_ := "DOS Retail";
                 Files := storeAll [("A"%string, [x41; x42]); ("B"%string, [])] ∅ |} in
  OpenArchiveFrom [("A"%string, [x41; x42]); ("B"%string, [])].*1 false
    (openFile (rawArchive [("A"%string, [x41; x42]); ("B"%string, [])])) 0
  = Return (Some arch) None ∧
  (∀ name, name ∉ [("A"%string, [x41; x42]); ("B"%string, [])].*1 →
     Archive_Open arch name = inl (errorString "file does not exist")) ∧
  (NoDup [("A"%string, [x41; x42]); ("B"%string, [])].*1 →
   ∀ name data, (name, data) ∈ [("A"%string, [x41; x42]); ("B"%string, [])] →
     Archive_Open arch name = inr data).
Proof.
  apply (rawArchive_roundtrip [("A"%string, [x41; x42]); ("B"%string, [])] false 0).
  - repeat constructor; simpl; (discriminate || lia).
  - vm_compute. reflexivity.
Defined.

(** X17.  A compressed entry whose payload is made of literals is stored
    decoded, and the file is left right behind the payload. *)
Theorem compressedEntry_literals (chunks : list (list byte)) (fileName : string)
    (c rest : list byte) (p : nat) (files : gmap string (list byte)) :
  wellChunked chunks →
  drop p c = storeChunks chunks ++ rest →
  storeEntry true (Z.of_nat (length (concat chunks)))
    (Z.of_nat (length (storeChunks chunks))) fileName
    {| contents := c; pos := p |} files
  = Next {| contents := c; pos := p + length (storeChunks chunks) |}
         (<[fileName := concat chunks]> files).
Proof.
  intros Hwell Hdrop. unfold storeEntry, uncompressData.
  cbn [ReadSeeker_Reader File_ReadSeeker].
  rewrite (decodeLoop_literals chunks _ _ _ _ c p rest Hwell Hdrop);
    cbn [freshDecoder numWrite numRead written]; (lia || done).
Qed.

Lemma compressedEntry_literals_witness :
  storeEntry true (Z.of_nat (length (concat [[x41; x42]])))
    (Z.of_nat (length (storeChunks [[x41; x42]]))) "A"
    {| contents := [x00; xff; x41; x42; x07]; pos := 1 |} ∅
  = Next {| contents := [x00; xff; x41; x42; x07];
            pos := 1 + length (storeChunks [[x41; x42]]) |}
         (<["A"%string := concat [[x41; x42]]]> ∅).
Proof.
  apply (compressedEntry_literals [[x41; x42]] "A" [x00; xff; x41; x42; x07] [x07] 1 ∅).
  - simpl. repeat split; (lia || done).
  - reflexivity.
Defined.

(** X18.  [readShort] reads on after a read that returned no byte, and
    puts together two bytes that arrive in two reads. *)
Theorem readShort_short_reads (s : Script) (lo hi : byte) (rest : list byte) :
  readShort (Chunk [] :: s) = readShort s ∧
  readShort (Chunk [lo] :: Chunk (hi :: rest) :: s)
  = ((Z.of_N (Byte.to_N lo) + 256 * Z.of_N (Byte.to_N hi))%Z, None,
     if decide (rest = []) then s else Chunk rest :: s).
Proof.
  split.
  - reflexivity.
  - unfold readShort, binary_Read, ReadFull. cbn [pending Script_Reader Script_pending].
    cbn [ReadAtLeast_loop length Nat.ltb Nat.leb Nat.sub Read Script_Reader Script_Read
         Nat.eqb app].
    destruct rest as [|b rest]; cbn [length Nat.leb Nat.eqb Nat.ltb take drop app
      ReadAtLeast_loop Script_Read Read Script_Reader littleEndian foldr];
      rewrite ?decide_True, ?decide_False by done;
      do 2 f_equal; unfold littleEndian; cbn [foldr]; lia.
Qed.

(** X19.  Slots whose offsets are sentinels are passed over: the stream is
    neither moved nor read and the map stays as it was.  The manifest is
    indexed for each of them all the same, so the loop panics if it goes
    beyond the manifest, which the check of the count excludes in the
    loader. *)
Theorem placeholders_only {R : Type} `{ReadSeeker R} (fileMap : list string)
    (LoadUnsupported : bool) (fileTable offsets : list Z) (sz : Z) (i : nat)
    (fp : R) (files : gmap string (list byte)) :
  Forall (λ o, o = 0 ∨ o = 0xFFFFFFFF)%Z offsets →
  loadSlots fileMap LoadUnsupported fileTable sz i offsets fp files =
    if decide (offsets = [] ∨ i + length offsets ≤ length fileMap)
    then Next fp files else Stop Panic.
Proof.
  intros Hall. revert i. induction Hall as [|o offsets Ho _ IH]; intros i;
    cbn [loadSlots].
  { rewrite decide_True by auto. reflexivity. }
  unfold loadSlot, isPlaceHolder.
  assert (Hs : ((o =? 0) || (o =? 4294967295))%Z = true).
  { destruct Ho as [-> | ->]; reflexivity. }
  rewrite Hs. cbn [length].
  destruct (fileMap !! i) as [name|] eqn:Hname.
  - apply lookup_lt_Some in Hname. rewrite IH.
    destruct offsets as [|o' offsets].
    + rewrite !decide_True; [reflexivity|right; cbn [length]; lia|by left].
    + cbn [length]. repeat case_decide; try reflexivity; exfalso;
        repeat match goal with
               | Hor : _ ∨ _ |- _ => destruct Hor as [Hor|Hor]; [discriminate|]
               | Hn : ¬ (_ ∨ _) |- _ => apply Hn; right; lia
               end; lia.
  - apply lookup_ge_None in Hname.
    rewrite decide_False; [reflexivity|]. intros [Hnil|Hle]; [discriminate|lia].
Qed.

Lemma placeholders_only_witness :
  loadSlots ["A"%string; "B"%string] false [0; 0xFFFFFFFF]%Z 8 0 [0; 0xFFFFFFFF]%Z
    (openFile []) ∅
  = Next (openFile []) ∅.
Proof.
  rewrite (placeholders_only ["A"%string; "B"%string] false).
  - reflexivity.
  - repeat constructor; lia.
Defined.

(** X20.  A slot that is not a placeholder and whose header word does not lie
    within the file ends the load with [io.EOF] or [io.ErrUnexpectedEOF],
    whatever its manifest name and the [LoadUnsupported] flag: the header is
    read before the name is looked at. *)
Theorem slot_header_beyond_end (fileMap : list string) (LoadUnsupported : bool)
    (fileTable : list Z) (sz : Z) (i : nat) (offset : Z) (c : list byte)
    (q : nat) (files : gmap string (list byte)) :
  isPlaceHolder fileTable offset (Z.of_nat i) = Some false →
  (0 ≤ offset)%Z →
  (Z.of_nat (length c) < offset + 4)%Z →
  ∃ e,
    loadSlot fileMap LoadUnsupported fileTable sz i offset
      {| contents := c; pos := q |} files
    = Stop (Return None (Some e)) ∧
    e ∈ [EOF; ErrUnexpectedEOF].
Proof.
  intros Hp Hpos Hend. unfold loadSlot. rewrite Hp.
  cbn [Seek File_ReadSeeker ReadSeeker_Reader]. unfold File_Seek.
  destruct (Z.ltb_spec offset 0); [lia|]. cbn [contents].
  unfold binary_Read. rewrite File_ReadFull by lia.
  destruct (decide (length c ≤ Z.to_nat offset)).
  { exists EOF. split; [reflexivity|set_solver]. }
  destruct (decide (Z.to_nat offset + 4 ≤ length c)); [lia|].
  exists ErrUnexpectedEOF. split; [reflexivity|set_solver].
Qed.

Lemma slot_header_beyond_end_witness :
  ∃ e,
    loadSlot [""%string] false [12%Z] 14 0 12
      {| contents := dosRetail ++ le32 1 ++ le32 12 ++ [x02; x00]; pos := 12 |} ∅
    = Stop (Return None (Some e)) ∧
    e ∈ [EOF; ErrUnexpectedEOF].
Proof.
  apply (slot_header_beyond_end [""%string] false [12%Z] 14 0 12).
  - reflexivity.
  - lia.
  - simpl. lia.
Defined.
